(** * Verification of [developing_valuation.py]

    Valuations on polynomial rings defined by phi-adic expansions
    (class [DevelopingValuation]).

    The polynomial ring is modelled as dense coefficient lists over the
    integers (an exact commutative base ring), lowest degree first, kept
    free of trailing zeros as Sage keeps its dense polynomials.  The
    memoisation of [__quo_rem_monomial] is a finite map threaded through
    the computations that use it; exceptions are an error type; the
    generator of [__coefficients] is the list of the values it yields,
    driven by a fuel that bounds the number of loop iterations. *)

From Stdlib Require Import ZArith List Sorted Lia QArith Lqa Ring Setoid Morphisms String.
From stdpp Require Import gmap.
Import ListNotations.

Local Open Scope Z_scope.

(** ** Dense univariate polynomials over the integers

    Modelled from the spec: the polynomial ring of Sage (the spec's
    PolynomialDomain), of which the class only calls the operations:
    degree, coefficient extraction, the ring operations, [<<], the
    substitution [f(g)], the monic and constant tests and the division
    with remainder by a monic polynomial. *)

Module Poly.

Definition poly := list Z.

(** Removal of trailing zero coefficients. *)
Fixpoint norm (p : poly) : poly :=
  match p with
  | [] => []
  | a :: p' =>
      match norm p' with
      | [] => if a =? 0 then [] else [a]
      | q => a :: q
      end
  end.

(** The polynomials Sage manipulates: no trailing zero. *)
Definition wf (p : poly) : Prop := norm p = p.

(** [f[i]]: the coefficient of [x^i], zero beyond the degree. *)
Definition coef (p : poly) (i : nat) : Z := nth i p 0.

(** [f.degree()]: the zero polynomial has degree -1. *)
Definition degree (p : poly) : Z := Z.of_nat (length p) - 1.

Definition zero : poly := [].
Definition one : poly := [1].
Definition gen : poly := [0; 1].

(** Conversion of a base-ring element into the polynomial ring. *)
Definition constant (c : Z) : poly := norm [c].

Definition is_zero (p : poly) : bool :=
  match p with [] => true | _ => false end.

Definition is_constant (p : poly) : bool := degree p <=? 0.

Definition lead (p : poly) : Z := List.last p 0.

Definition is_monic (p : poly) : bool := lead p =? 1.

(** Arithmetic on raw coefficient lists. *)
Fixpoint padd (p q : poly) : poly :=
  match p, q with
  | [], _ => q
  | _, [] => p
  | a :: p', b :: q' => (a + b) :: padd p' q'
  end.

Definition pscale (c : Z) (p : poly) : poly := map (Z.mul c) p.

Definition popp (p : poly) : poly := pscale (-1) p.

Definition psub (p q : poly) : poly := padd p (popp q).

Fixpoint pmul (p q : poly) : poly :=
  match p with
  | [] => []
  | a :: p' => padd (pscale a q) (0 :: pmul p' q)
  end.

(** The ring operations of the polynomial ring. *)
Definition add (p q : poly) : poly := norm (padd p q).
Definition sub (p q : poly) : poly := norm (psub p q).
Definition mul (p q : poly) : poly := norm (pmul p q).

(** [c * g] for a base-ring element [c] and a polynomial [g]. *)
Definition smul (c : Z) (g : poly) : poly := norm (pscale c g).

Fixpoint pow (p : poly) (n : nat) : poly :=
  match n with
  | O => one
  | S n' => mul p (pow p n')
  end.

(** [p << d]: multiplication by [x^d]. *)
Definition shift (p : poly) (d : nat) : poly := norm (repeat 0 d ++ p).

(** Python's [sum] of a list of polynomials: a left fold from zero. *)
Definition py_sum (l : list poly) : poly := fold_left add l zero.

(** [f(g)]: substitution of [g] for the generator, by Horner's rule. *)
Fixpoint pcomp (f g : poly) : poly :=
  match f with
  | [] => []
  | a :: f' => padd [a] (pmul g (pcomp f' g))
  end.

Definition subst (f g : poly) : poly := norm (pcomp f g).

(** [f.coefficients(sparse=False)]: the dense coefficient list. *)
Definition coefficients_dense (f : poly) : list Z := f.

(** Division with remainder by a monic polynomial: the quotient and the
    remainder of [a + x*f'] are obtained from those of [f'] by moving the
    coefficient the remainder gains in degree [deg g] into the quotient. *)
Fixpoint pquo_rem (f g : poly) : poly * poly :=
  match f with
  | [] => ([], [])
  | a :: f' =>
      let '(q, r) := pquo_rem f' g in
      let t := a :: r in
      let c := coef t (length g - 1) in
      (c :: q, psub t (pscale c g))
  end.

(** [f.quo_rem(g)] for monic [g]. *)
Definition quo_rem (f g : poly) : poly * poly :=
  let '(q, r) := pquo_rem f g in (norm q, norm r).

(** [sum_i cs[i] * phi^i]. *)
Fixpoint expansion_sum_from (phi : poly) (i : nat) (cs : list poly) : poly :=
  match cs with
  | [] => zero
  | c :: cs' => add (mul c (pow phi i)) (expansion_sum_from phi (S i) cs')
  end.

Definition expansion_sum (phi : poly) (cs : list poly) : poly :=
  expansion_sum_from phi 0 cs.

(** *** Equality of polynomials as equality of all coefficients *)

Inductive peq (p q : poly) : Prop :=
| peq_intro : (forall i, coef p i = coef q i) -> peq p q.

Infix "≈" := peq (at level 70, no associativity).

Lemma peq_coef p q : p ≈ q -> forall i, coef p i = coef q i.
Proof. now intros [H]. Qed.

Ltac by_coef := apply peq_intro.

Lemma coef_nil i : coef [] i = 0.
Proof. destruct i; reflexivity. Qed.

Lemma coef_cons_0 a p : coef (a :: p) 0 = a.
Proof. reflexivity. Qed.

Lemma coef_cons_S a p i : coef (a :: p) (S i) = coef p i.
Proof. reflexivity. Qed.

Lemma coef_overflow p i : (length p <= i)%nat -> coef p i = 0.
Proof. intros H. unfold coef. now apply nth_overflow. Qed.

Lemma coef_padd p q i : coef (padd p q) i = coef p i + coef q i.
Proof.
  revert q i. induction p as [|a p IH]; intros q i.
  - simpl. rewrite coef_nil. lia.
  - destruct q as [|b q].
    + simpl. rewrite coef_nil. lia.
    + destruct i as [|i]; simpl padd.
      * reflexivity.
      * rewrite !coef_cons_S. apply IH.
Qed.

Lemma coef_pscale c p i : coef (pscale c p) i = c * coef p i.
Proof.
  revert i. induction p as [|a p IH]; intros i.
  - simpl. rewrite coef_nil. lia.
  - destruct i as [|i]; simpl pscale.
    + reflexivity.
    + rewrite !coef_cons_S. apply IH.
Qed.

Lemma coef_popp p i : coef (popp p) i = - coef p i.
Proof. unfold popp. rewrite coef_pscale. lia. Qed.

Lemma coef_psub p q i : coef (psub p q) i = coef p i - coef q i.
Proof. unfold psub. rewrite coef_padd, coef_popp. lia. Qed.

Ltac coefs :=
  repeat first
    [ rewrite coef_padd | rewrite coef_psub | rewrite coef_popp
    | rewrite coef_pscale | rewrite coef_cons_S | rewrite coef_cons_0
    | rewrite coef_nil ].

#[export] Instance peq_equiv : Equivalence peq.
Proof.
  split.
  - intros p. by_coef. reflexivity.
  - intros p q H. by_coef. intros i. symmetry. now apply peq_coef.
  - intros p q r H1 H2. by_coef. intros i.
    rewrite (peq_coef _ _ H1). now apply peq_coef.
Qed.

#[export] Instance cons_proper : Proper (eq ==> peq ==> peq) (@cons Z).
Proof.
  intros a b -> p q H. by_coef.
  intros [|i]; coefs; [reflexivity | now apply peq_coef].
Qed.

#[export] Instance padd_proper : Proper (peq ==> peq ==> peq) padd.
Proof.
  intros p p' Hp q q' Hq. by_coef. intros i. coefs.
  now rewrite (peq_coef _ _ Hp), (peq_coef _ _ Hq).
Qed.

#[export] Instance pscale_proper : Proper (eq ==> peq ==> peq) pscale.
Proof.
  intros c c' -> p p' Hp. by_coef. intros i. coefs.
  now rewrite (peq_coef _ _ Hp).
Qed.

#[export] Instance popp_proper : Proper (peq ==> peq) popp.
Proof.
  intros p p' Hp. by_coef. intros i. coefs. now rewrite (peq_coef _ _ Hp).
Qed.

#[export] Instance psub_proper : Proper (peq ==> peq ==> peq) psub.
Proof.
  intros p p' Hp q q' Hq. by_coef. intros i. coefs.
  now rewrite (peq_coef _ _ Hp), (peq_coef _ _ Hq).
Qed.

Lemma peq_cons_inv a b p q : a :: p ≈ b :: q -> a = b /\ p ≈ q.
Proof.
  intros H. split.
  - apply (peq_coef _ _ H O).
  - by_coef. intros i. apply (peq_coef _ _ H (S i)).
Qed.

(** *** Normal forms *)

Lemma norm_zero p : p ≈ [] -> norm p = [].
Proof.
  induction p as [|a p IH]; intros H; [reflexivity|].
  simpl. rewrite IH.
  - pose proof (peq_coef _ _ H O) as H0.
    rewrite coef_cons_0, coef_nil in H0. subst a. reflexivity.
  - by_coef. intros i. pose proof (peq_coef _ _ H (S i)) as Hi.
    now rewrite coef_cons_S, !coef_nil in *.
Qed.

Lemma norm_peq p : norm p ≈ p.
Proof.
  induction p as [|a p IH]; [reflexivity|].
  simpl. destruct (norm p) as [|b q] eqn:E.
  - destruct (Z.eqb_spec a 0) as [->|Ha].
    + by_coef. intros [|i]; coefs; [reflexivity|].
      rewrite <- (peq_coef _ _ IH). now rewrite coef_nil.
    + now rewrite IH.
  - now rewrite IH.
Qed.

Lemma peq_norm p q : p ≈ q -> norm p = norm q.
Proof.
  revert q. induction p as [|a p IH]; intros q H.
  - symmetry. apply norm_zero. now symmetry.
  - destruct q as [|b q].
    + now apply norm_zero.
    + apply peq_cons_inv in H as [-> H]. simpl. now rewrite (IH q H).
Qed.

Lemma wf_norm p : wf (norm p).
Proof. apply peq_norm, norm_peq. Qed.

Lemma wf_peq_eq p q : wf p -> wf q -> p ≈ q -> p = q.
Proof. intros Hp Hq H. rewrite <- Hp, <- Hq. now apply peq_norm. Qed.

Lemma coef_norm p i : coef (norm p) i = coef p i.
Proof. apply peq_coef, norm_peq. Qed.

Lemma wf_tail a p : wf (a :: p) -> wf p.
Proof.
  unfold wf. simpl. destruct (norm p) as [|b q] eqn:E.
  - destruct (a =? 0); [discriminate|]. now intros [= <-].
  - now intros [= <-].
Qed.

Lemma wf_lead_nonzero p : wf p -> p <> [] -> coef p (length p - 1) <> 0.
Proof.
  induction p as [|a p IH]; intros Hwf Hne; [congruence|].
  pose proof (wf_tail _ _ Hwf) as Hp.
  destruct p as [|b p].
  - unfold wf in Hwf. simpl in Hwf. simpl.
    destruct (Z.eqb_spec a 0); [discriminate | assumption].
  - replace (length (a :: b :: p) - 1)%nat with (S (length (b :: p) - 1))
      by (simpl; lia).
    rewrite coef_cons_S. apply IH; [assumption | discriminate].
Qed.

Lemma wf_length_le p m :
  wf p -> (forall i, (m <= i)%nat -> coef p i = 0) -> (length p <= m)%nat.
Proof.
  intros Hwf H.
  destruct (le_lt_dec (length p) m) as [|Hlt]; [assumption|].
  exfalso. apply (wf_lead_nonzero p Hwf).
  - intros ->. simpl in Hlt. lia.
  - apply H. lia.
Qed.

Lemma wf_nil : wf [].
Proof. reflexivity. Qed.

Lemma norm_nil_peq p : norm p = [] -> p ≈ [].
Proof. intros H. rewrite <- (norm_peq p). now rewrite H. Qed.

(** *** The commutative ring of polynomials *)

Lemma padd_0_l p : padd [] p ≈ p.
Proof. reflexivity. Qed.

Lemma padd_0_r p : padd p [] ≈ p.
Proof. by_coef. intros i. coefs. lia. Qed.

Lemma padd_comm p q : padd p q ≈ padd q p.
Proof. by_coef. intros i. coefs. lia. Qed.

Lemma padd_assoc p q r : padd p (padd q r) ≈ padd (padd p q) r.
Proof. by_coef. intros i. coefs. lia. Qed.

Lemma pmul_proper_r p q q' : q ≈ q' -> pmul p q ≈ pmul p q'.
Proof.
  intros H. induction p as [|a p IH]; simpl; [reflexivity|].
  rewrite IH. now rewrite H.
Qed.

Lemma pmul_nil_r p : pmul p [] ≈ [].
Proof.
  induction p as [|a p IH]; simpl; [reflexivity|].
  rewrite IH. by_coef. intros [|i]; coefs; reflexivity.
Qed.

Lemma pmul_cons_r p b q :
  pmul p (b :: q) ≈ padd (pscale b p) (0 :: pmul p q).
Proof.
  induction p as [|a p IH]; simpl.
  - by_coef. intros [|i]; coefs; reflexivity.
  - rewrite IH. by_coef. intros [|i]; coefs; lia.
Qed.

Lemma pmul_comm p q : pmul p q ≈ pmul q p.
Proof.
  revert q. induction p as [|a p IH]; intros q; simpl.
  - now rewrite pmul_nil_r.
  - now rewrite pmul_cons_r, IH.
Qed.

#[export] Instance pmul_proper : Proper (peq ==> peq ==> peq) pmul.
Proof.
  intros p p' Hp q q' Hq.
  rewrite (pmul_proper_r p q q' Hq).
  rewrite (pmul_comm p q'), (pmul_comm p' q').
  now apply pmul_proper_r.
Qed.

Lemma pmul_padd_distr_r p q r :
  pmul (padd p q) r ≈ padd (pmul p r) (pmul q r).
Proof.
  revert q. induction p as [|a p IH]; intros q; [reflexivity|].
  destruct q as [|b q].
  - simpl. now rewrite padd_0_r.
  - simpl. rewrite IH. by_coef. intros [|i]; coefs; lia.
Qed.

Lemma pmul_pscale_l c p q : pmul (pscale c p) q ≈ pscale c (pmul p q).
Proof.
  induction p as [|a p IH]; simpl; [reflexivity|].
  rewrite IH. by_coef. intros [|i]; coefs; lia.
Qed.

Lemma pmul_shift_l p q : pmul (0 :: p) q ≈ 0 :: pmul p q.
Proof. simpl. by_coef. intros [|i]; coefs; lia. Qed.

Lemma pmul_assoc p q r : pmul p (pmul q r) ≈ pmul (pmul p q) r.
Proof.
  induction p as [|a p IH]; simpl; [reflexivity|].
  now rewrite pmul_padd_distr_r, pmul_pscale_l, pmul_shift_l, IH.
Qed.

Lemma pmul_1_l p : pmul [1] p ≈ p.
Proof. simpl. by_coef. intros [|i]; coefs; lia. Qed.

Lemma poly_ring_theory : @ring_theory poly [] [1] padd pmul psub popp peq.
Proof.
  constructor.
  - apply padd_0_l.
  - apply padd_comm.
  - apply padd_assoc.
  - apply pmul_1_l.
  - apply pmul_comm.
  - apply pmul_assoc.
  - apply pmul_padd_distr_r.
  - reflexivity.
  - intros p. by_coef. intros i. coefs. lia.
Qed.

Lemma poly_ring_ext : @ring_eq_ext poly padd pmul popp peq.
Proof.
  constructor.
  - apply padd_proper.
  - apply pmul_proper.
  - apply popp_proper.
Qed.

(** Scalars and the generator inside the ring. *)
Lemma pscale_pmul c p : pscale c p ≈ pmul [c] p.
Proof. simpl. by_coef. intros [|i]; coefs; lia. Qed.

Lemma cons_pmul a p : a :: p ≈ padd [a] (pmul [0; 1] p).
Proof.
  cbn [pmul]. by_coef. intros [|[|i]]; coefs; lia.
Qed.

Lemma add_peq p q : add p q ≈ padd p q.
Proof. apply norm_peq. Qed.

Lemma sub_peq p q : sub p q ≈ psub p q.
Proof. apply norm_peq. Qed.

Lemma mul_peq p q : mul p q ≈ pmul p q.
Proof. apply norm_peq. Qed.

Lemma smul_peq c p : smul c p ≈ pmul [c] p.
Proof. unfold smul. rewrite norm_peq. apply pscale_pmul. Qed.

Lemma wf_add p q : wf (add p q).
Proof. apply wf_norm. Qed.

Lemma wf_mul p q : wf (mul p q).
Proof. apply wf_norm. Qed.

Lemma wf_smul c p : wf (smul c p).
Proof. apply wf_norm. Qed.

(** *** Sanity checks on concrete polynomials *)

Example quo_rem_x2 :
  quo_rem [0; 0; 1] [1; 1; 1] = ([1], [-1; -1]).
Proof. reflexivity. Qed.

End Poly.
Import Poly.

Add Ring poly_ring : poly_ring_theory (setoid peq_equiv poly_ring_ext).

(** ** Python values: exceptions, iteration helpers, the value group *)

Inductive exn : Type :=
| TypeError (msg : string)
| NotImplementedError (msg : string)
| ValueError (msg : string)
| IndexError (msg : string).

Inductive result (A : Type) : Type :=
| Ok (a : A)
| Raise (e : exn).

Arguments Ok {A} a.
Arguments Raise {A} e.

#[export] Instance result_ret : MRet result := fun A a => Ok a.
#[export] Instance result_bind : MBind result := fun A B f m =>
  match m with
  | Ok a => f a
  | Raise e => Raise e
  end.

(** [enumerate(l)], counting from [n]. *)
Fixpoint enumerate_from {A : Type} (n : nat) (l : list A) : list (nat * A) :=
  match l with
  | [] => []
  | x :: l' => (n, x) :: enumerate_from (S n) l'
  end.

Definition enumerate {A : Type} (l : list A) : list (nat * A) :=
  enumerate_from 0 l.

(** [l[-1]]. *)
Definition py_last {A : Type} (l : list A) : result A :=
  match List.rev l with
  | [] => Raise (IndexError "list index out of range")
  | x :: _ => Ok x
  end.

(** Elements of the value group: rational numbers and [infinity]. *)
Inductive value : Type :=
| Finite (q : Q)
| Infinity.

Definition value_eqb (a b : value) : bool :=
  match a, b with
  | Finite x, Finite y => Qeq_bool x y
  | Infinity, Infinity => true
  | _, _ => false
  end.

Definition value_leb (a b : value) : bool :=
  match a, b with
  | Finite x, Finite y => Qle_bool x y
  | _, Infinity => true
  | Infinity, Finite _ => false
  end.

Definition value_ltb (a b : value) : bool := negb (value_leb b a).

(** [min(l)]: the first smallest item; an empty argument is an error. *)
Definition py_min (l : list value) : result value :=
  match l with
  | [] => Raise (ValueError "min() arg is an empty sequence")
  | w :: l' => Ok (fold_left (fun m x => if value_ltb x m then x else m) l' w)
  end.

(** ** Sage parents and elements *)

(** An element knows the parent it belongs to (by the identity of the
    parent object) and carries its data, a coefficient list. *)
Record Element : Type := {
  parent : nat;
  coeffs : poly
}.

(** A ring as the constructor sees it.  [coerce] is the coercion of the
    ring: the element of this ring a given element canonically maps to,
    when there is one. *)
Record Ring : Type := {
  ring_id : nat;
  is_PolynomialRing : bool;
  ngens : nat;
  coerce : Element -> option poly
}.

(** The parent of a valuation: the space of valuations on a [domain]. *)
Record ValuationParent : Type := {
  parent_domain : Ring
}.

(** ** The memoisation of [__quo_rem_monomial] *)

Definition state (A : Type) : Type :=
  gmap nat (poly * poly) -> A * gmap nat (poly * poly).

#[export] Instance state_ret : MRet state := fun A a c => (a, c).
#[export] Instance state_bind : MBind state := fun A B f m c =>
  let '(a, c') := m c in f a c'.

(** ** Class [DevelopingValuation] *)

(** An instance: its parent, the key polynomial stored by the constructor
    and the implementation of the abstract method [valuations] that the
    concrete subclass supplies. *)
Record DevelopingValuation : Type := {
  _parent : ValuationParent;
  _phi : poly;
  valuations : poly -> list value
}.

Definition domain (self : DevelopingValuation) : Ring :=
  parent_domain (_parent self).

(** The element of the domain with the given coefficients. *)
Definition in_domain (self : DevelopingValuation) (f : poly) : Element :=
  {| parent := ring_id (domain self); coeffs := f |}.

Definition __init__ (subclass_valuations : poly -> list value)
    (P : ValuationParent) (phi : Element) : result DevelopingValuation :=
  let domain := parent_domain P in
  if negb (is_PolynomialRing domain) then
    Raise (TypeError "domain must be a polynomial ring but %r is not")
  else if negb (ngens domain =? 1)%nat then
    Raise (NotImplementedError
             "domain must be a univariate polynomial ring but %r is not")
  else
    match coerce domain phi with
    | None => Raise (TypeError "no canonical coercion")
    | Some phi =>
        if is_constant phi || negb (is_monic phi) then
          Raise (ValueError
                   "phi must be a monic non-constant polynomial but %r is not")
        else
          Ok {| _parent := P; _phi := phi;
                valuations := subclass_valuations |}
    end.

Definition phi (self : DevelopingValuation) : poly := _phi self.

Definition __quo_rem_monomial (self : DevelopingValuation) (degree : nat)
  : state (poly * poly) :=
  fun cache =>
    match cache !! degree with
    | Some qr => (qr, cache)
    | None =>
        let f := shift one degree in
        let qr := quo_rem f (phi self) in
        (qr, <[degree := qr]> cache)
    end.

Definition __quo_rem (self : DevelopingValuation) (f : poly)
  : state (poly * poly) :=
  qr ← mapM (__quo_rem_monomial self) (seq 0 (Z.to_nat (degree f + 1)));
  let q := map (fun '(i, (g, _)) => smul (coef f i) g) (enumerate qr) in
  let r := map (fun '(i, (_, h)) => smul (coef f i) h) (enumerate qr) in
  mret (py_sum q, py_sum r).

(** The generator [__coefficients]: the list of the values it yields.  One
    unit of fuel is spent per iteration of the loop; [None] means the loop
    was still running when the fuel ran out. *)
Fixpoint __coefficients (self : DevelopingValuation) (fuel : nat) (f : poly)
  : state (option (list poly)) :=
  if 0 <=? degree f then
    match fuel with
    | O => mret None
    | S fuel' =>
        '(q, r) ← __quo_rem self f;
        rest ← __coefficients self fuel' q;
        mret (cons r <$> rest)
    end
  else mret (Some []).

Definition coefficients (self : DevelopingValuation) (fuel : nat)
    (f : Element) : state (result (option (list poly))) :=
  if negb (parent f =? ring_id (domain self))%nat then
    mret (Raise (ValueError "f must be in the domain of the valuation"))
  else if degree (phi self) =? 1 then
    let x := gen in
    let g := subst (coeffs f) (sub x (constant (coef (phi self) 0))) in
    mret (Ok (Some (map constant (coefficients_dense g))))
  else
    cs ← __coefficients self fuel (coeffs f);
    mret (Ok cs).

(** Modelled from the spec: [NewtonPolygon] of [sage.geometry], which this
    file only calls.  The polygon is given by the vertices of the lower
    convex hull of the points with a finite ordinate, by increasing
    abscissa; points at infinity are dropped. *)
Definition point : Type := (Z * Q)%type.

Definition cross (a b c : point) : Q :=
  ((inject_Z (fst b) - inject_Z (fst a)) * (snd c - snd a)
   - (snd b - snd a) * (inject_Z (fst c) - inject_Z (fst a)))%Q.

Fixpoint hull_push (c : point) (stack : list point) : list point :=
  match stack with
  | b :: ((a :: _) as rest) =>
      if Qle_bool (cross a b c) 0 then hull_push c rest else c :: stack
  | _ => c :: stack
  end.

Definition finite_points (pts : list (nat * value)) : list point :=
  omap (fun '(i, w) =>
          match w with
          | Finite y => Some (Z.of_nat i, y)
          | Infinity => None
          end) pts.

Definition NewtonPolygon (pts : list (nat * value)) : list point :=
  List.rev (fold_left (fun stack c => hull_push c stack) (finite_points pts) []).

Definition _call_ (self : DevelopingValuation) (f : Element) : result value :=
  if negb (parent f =? ring_id (domain self))%nat then
    Raise (ValueError "f must be in the domain of the valuation %s but is in %s")
  else if is_zero (coeffs f) then
    Ok Infinity
  else
    py_min (valuations self (coeffs f)).

Definition newton_polygon (self : DevelopingValuation) (f : Element)
  : result (list point) :=
  if negb (parent f =? ring_id (domain self))%nat then
    Raise (ValueError "f must be in the domain of the valuation")
  else
    Ok (NewtonPolygon (enumerate (valuations self (coeffs f)))).

(** In [effective_degree] the call [self(f)] is made on the coerced [f],
    which lies in the domain: it reaches [_call_] directly. *)
Definition effective_degree (self : DevelopingValuation) (f : Element)
  : result nat :=
  match coerce (domain self) f with
  | None => Raise (TypeError "no canonical coercion")
  | Some f =>
      if is_zero f then
        Raise (ValueError
                 "the effective degree is only defined for non-zero polynomials")
      else
        v ← _call_ self (in_domain self f);
        py_last (map fst (List.filter (fun '(i, w) => value_eqb w v)
                                 (enumerate (valuations self f))))
  end.

(** [self(x)], the call of a map of Sage: an element of the domain goes to
    [_call_] as it is, another element is coerced into the domain first. *)
Definition __call__ (self : DevelopingValuation) (x : Element) : result value :=
  if (parent x =? ring_id (domain self))%nat then _call_ self x
  else
    match coerce (domain self) x with
    | Some f => _call_ self (in_domain self f)
    | None => Raise (TypeError "fails to convert into the domain of the map")
    end.

Definition _make_monic_integral (self : DevelopingValuation) (G : Element)
  : result Element :=
  if is_monic (coeffs G) then
    v ← __call__ self G;
    if value_leb (Finite 0) v then Ok G
    else
      Raise (NotImplementedError
               "The polynomial %r is not monic integral and %r does not provide the means to rewrite it to a monic integral polynomial.")
  else
    Raise (NotImplementedError
             "The polynomial %r is not monic integral and %r does not provide the means to rewrite it to a monic integral polynomial.").

(** [x == 0] for an element given by its data. *)
Definition element_is_zero (x : Element) : bool := is_zero (norm (coeffs x)).

(** The outcome of a test method: it passes, an assertion fails on a sample
    (with the value obtained), or an exception escapes. *)
Inductive test_outcome : Type :=
| Passed
| AssertionFailed (x : Element) (got : nat)
| Errored (e : exn).

(** [_test_effective_degree], on the sample [S] of elements of the base ring
    that the tester draws. *)
Fixpoint _test_effective_degree (self : DevelopingValuation) (S : list Element)
  : test_outcome :=
  match S with
  | [] => Passed
  | x :: S' =>
      if element_is_zero x then _test_effective_degree self S'
      else
        match effective_degree self x with
        | Ok d =>
            if (d =? 0)%nat then _test_effective_degree self S'
            else AssertionFailed x d
        | Raise e => Errored e
        end
  end.

(** ** The computation without the cache *)

(** [__quo_rem] without its cache. *)
Definition quo_rem_by_monomials (key f : poly) : poly * poly :=
  let qr := map (fun d => quo_rem (shift one d) key)
                (seq 0 (Z.to_nat (degree f + 1))) in
  (py_sum (map (fun '(i, (g, _)) => smul (coef f i) g) (enumerate qr)),
   py_sum (map (fun '(i, (_, h)) => smul (coef f i) h) (enumerate qr))).

Arguments quo_rem_by_monomials : simpl never.

(** [__coefficients] without its cache. *)
Fixpoint division_loop (key : poly) (fuel : nat) (f : poly)
  : option (list poly) :=
  if 0 <=? degree f then
    match fuel with
    | O => None
    | S fuel' =>
        let '(q, r) := quo_rem_by_monomials key f in
        cons r <$> division_loop key fuel' q
    end
  else Some [].

(** The expansion of [f] in base [key]: the list that the iterator returned
    by [coefficients] yields (lemma [coefficients_expansion] below). *)
Definition expansion (key f : poly) : list poly :=
  if degree key =? 1 then
    map constant
      (coefficients_dense (subst f (sub gen (constant (coef key 0)))))
  else
    match division_loop key (length f) f with
    | Some cs => cs
    | None => []
    end.

(** ** Two concrete valuations, after the examples of the docstrings *)

Module Examples.

Definition ZZ_id : nat := 0%nat.
Definition ZZx_id : nat := 1%nat.

(** The base ring coerces into the polynomial ring; other parents do not. *)
Definition ZZx : Ring :=
  {| ring_id := ZZx_id;
     is_PolynomialRing := true;
     ngens := 1;
     coerce := fun e =>
       if (parent e =? ZZx_id)%nat then Some (coeffs e)
       else if (parent e =? ZZ_id)%nat then Some (constant (coef (coeffs e) 0))
       else None |}.

Definition space : ValuationParent := {| parent_domain := ZZx |}.

Definition in_ZZ (c : Z) : Element := {| parent := ZZ_id; coeffs := [c] |}.
Definition in_ZZx (f : poly) : Element := {| parent := ZZx_id; coeffs := f |}.

(** The 2-adic valuation of an integer. *)
Fixpoint val2_pos (p : positive) : nat :=
  match p with
  | xO p' => S (val2_pos p')
  | _ => O
  end.

Definition val2 (c : Z) : value :=
  match c with
  | Z0 => Infinity
  | Zpos p | Zneg p => Finite (inject_Z (Z.of_nat (val2_pos p)))
  end.

Definition value_min (a b : value) : value :=
  if value_ltb b a then b else a.

Definition value_add (a : value) (b : Q) : value :=
  match a with
  | Finite x => Finite (Qred (x + b))
  | Infinity => Infinity
  end.

(** The Gauss valuation of a polynomial: the least valuation of its
    coefficients. *)
Definition gauss (g : poly) : value :=
  fold_right value_min Infinity (map val2 g).

(** The valuations of the terms [f_i * phi^i] when [phi] is given the
    value [mu]. *)
Definition term_valuations (key : poly) (mu : Q) (f : poly) : list value :=
  map (fun '(i, c) => value_add (gauss c) (inject_Z (Z.of_nat i) * mu))
      (enumerate (expansion key f)).

Definition v0 : DevelopingValuation :=
  {| _parent := space; _phi := [0; 1]; valuations := term_valuations [0; 1] 0 |}.

Definition v1 : DevelopingValuation :=
  {| _parent := space; _phi := [1; 1; 1];
     valuations := term_valuations [1; 1; 1] 1 |}.

(** The examples of the docstrings, on the integers. *)

Example coefficients_gauss :
  fst (coefficients v0 3 (in_ZZx [3; 2; 1]) ∅) = Ok (Some [[3]; [2]; [1]]).
Proof. reflexivity. Qed.

Example coefficients_extension :
  fst (coefficients v1 3 (in_ZZx [3; 2; 1]) ∅) = Ok (Some [[2; 1]; [1]]).
Proof. vm_compute. reflexivity. Qed.

Example coefficients_cache :
  snd (coefficients v1 3 (in_ZZx [3; 2; 1]) ∅)
  = <[2%nat := ([1], [-1; -1])]>
      (<[1%nat := ([], [0; 1])]> (<[0%nat := ([], [1])]> ∅)).
Proof. vm_compute. reflexivity. Qed.

Example coefficients_out_of_fuel :
  fst (coefficients v1 1 (in_ZZx [3; 2; 1]) ∅) = Ok None.
Proof. vm_compute. reflexivity. Qed.

Example call_gauss : _call_ v0 (in_ZZx [3; 2; 1]) = Ok (Finite 0).
Proof. reflexivity. Qed.

Example call_extension : _call_ v1 (in_ZZx [3; 2; 1]) = Ok (Finite 0).
Proof. vm_compute. reflexivity. Qed.

Example call_extension_shifted :
  _call_ v1 (in_ZZx (mul [3; 2; 1] (pow [1; 1; 1] 3))) = Ok (Finite 3).
Proof. vm_compute. reflexivity. Qed.

Example call_zero : _call_ v1 (in_ZZx zero) = Ok Infinity.
Proof. reflexivity. Qed.

Example effective_degree_x : effective_degree v0 (in_ZZx [0; 1]) = Ok 1%nat.
Proof. reflexivity. Qed.

Example effective_degree_2x_1 :
  effective_degree v0 (in_ZZx [1; 2]) = Ok 0%nat.
Proof. reflexivity. Qed.

Example effective_degree_base_ring :
  effective_degree v0 (in_ZZ 4) = Ok 0%nat.
Proof. reflexivity. Qed.

Example newton_polygon_gauss :
  newton_polygon v0 (in_ZZx [3; 2; 1]) = Ok [(0, 0%Q); (2, 0%Q)].
Proof. reflexivity. Qed.

Example newton_polygon_extension :
  newton_polygon v1 (in_ZZx [3; 2; 1]) = Ok [(0, 0%Q); (1, 1%Q)].
Proof. vm_compute. reflexivity. Qed.

Example init_x :
  __init__ (term_valuations [0; 1] 0) space (in_ZZx [0; 1]) = Ok v0.
Proof. reflexivity. Qed.

Example init_not_monic :
  __init__ (term_valuations [0; 2] 0) space (in_ZZx [0; 2])
  = Raise (ValueError
             "phi must be a monic non-constant polynomial but %r is not").
Proof. reflexivity. Qed.

End Examples.

(** * Properties *)

(** ** Division by a monic polynomial *)

Lemma lead_coef p : lead p = coef p (length p - 1).
Proof.
  unfold lead, coef. induction p as [|a p IH]; [reflexivity|].
  destruct p as [|b p]; [reflexivity|].
  change (List.last (a :: b :: p) 0) with (List.last (b :: p) 0).
  rewrite IH. simpl. now rewrite Nat.sub_0_r.
Qed.

(** [g] is monic of degree [m], as a coefficient list. *)
Definition monic_of_degree (g : poly) (m : nat) : Prop :=
  length g = S m /\ coef g m = 1.

Lemma is_monic_degree g :
  is_monic g = true -> monic_of_degree g (length g - 1).
Proof.
  unfold is_monic. rewrite lead_coef. intros H%Z.eqb_eq. split; [|assumption].
  destruct g as [|a g]; [discriminate|]. simpl. lia.
Qed.

Lemma pquo_rem_spec g m :
  monic_of_degree g m ->
  forall f q r, pquo_rem f g = (q, r) ->
    f ≈ padd (pmul q g) r
    /\ (forall i, (m <= i)%nat -> coef r i = 0)
    /\ (forall i, (length f <= i)%nat -> coef r i = 0)
    /\ (forall i, (length f <= i + m)%nat -> coef q i = 0).
Proof.
  intros [Hlen Hlead].
  induction f as [|a f IH]; intros q r E.
  - injection E as <- <-.
    split; [by_coef; reflexivity | repeat split; intros; apply coef_nil].
  - simpl in E. destruct (pquo_rem f g) as [q' r'] eqn:E'.
    destruct (IH q' r' eq_refl) as (H1 & H2 & H3 & H4).
    rewrite Hlen in E. replace (S m - 1)%nat with m in E by lia.
    injection E as <- <-.
    split; [|split; [|split]].
    + set (c := coef (a :: r') m).
      rewrite (cons_pmul a f), H1, (cons_pmul c q'), (cons_pmul a r'),
        pscale_pmul.
      ring.
    + intros i Hi. coefs.
      destruct (Nat.eq_dec i m) as [->|Hne].
      * rewrite Hlead. lia.
      * rewrite (coef_overflow g i) by lia.
        destruct i as [|i]; [lia|]. coefs. rewrite H2 by lia. lia.
    + intros i Hi. simpl in Hi. destruct i as [|i]; [lia|]. coefs.
      rewrite H3 by lia.
      destruct (le_lt_dec (S i) m) as [Hle|Hgt].
      * destruct m as [|m]; [lia|]. coefs. rewrite H3 by lia. lia.
      * rewrite (coef_overflow g (S i)) by lia. lia.
    + intros i Hi. simpl in Hi. destruct i as [|i]; coefs.
      * destruct m as [|m]; [lia|]. coefs. apply H3. lia.
      * apply H4. lia.
Qed.

Lemma quo_rem_spec g m f q r :
  monic_of_degree g m -> quo_rem f g = (q, r) ->
  f ≈ padd (pmul q g) r /\ wf q /\ wf r
  /\ (forall i, (m <= i)%nat -> coef r i = 0)
  /\ (forall i, (length f <= i + m)%nat -> coef q i = 0).
Proof.
  intros Hg E. unfold quo_rem in E.
  destruct (pquo_rem f g) as [q' r'] eqn:E'. injection E as <- <-.
  destruct (pquo_rem_spec g m Hg f q' r' E') as (H1 & H2 & _ & H4).
  split; [|split; [|split; [|split]]]; try apply wf_norm.
  - now rewrite (norm_peq q'), (norm_peq r').
  - intros i Hi. rewrite coef_norm. now apply H2.
  - intros i Hi. rewrite coef_norm. now apply H4.
Qed.

(** The monomial [x^d]. *)
Lemma shift_one d : shift one d = repeat 0 d ++ [1].
Proof.
  unfold shift, one. induction d as [|d IH]; [reflexivity|].
  simpl. rewrite IH. now destruct d.
Qed.

Lemma coef_shift_one d i :
  coef (shift one d) i = if (i =? d)%nat then 1 else 0.
Proof.
  rewrite shift_one. revert i. induction d as [|d IH]; intros [|i]; simpl;
    try reflexivity.
  - now destruct i.
  - apply IH.
Qed.

Lemma length_shift_one d : length (shift one d) = S d.
Proof. rewrite shift_one, length_app, repeat_length. simpl. lia. Qed.

(** Sums of lists of polynomials. *)
Definition psum (l : list poly) : poly := fold_right padd [] l.

Lemma py_sum_peq l : py_sum l ≈ psum l.
Proof.
  unfold py_sum, zero.
  assert (H : forall acc, fold_left add l acc ≈ padd acc (psum l)).
  { induction l as [|x l IH]; intros acc; simpl.
    - now rewrite padd_0_r.
    - rewrite IH, add_peq. ring. }
  rewrite H. reflexivity.
Qed.

Lemma wf_py_sum l : wf (py_sum l).
Proof.
  unfold py_sum. assert (H : forall acc, wf acc -> wf (fold_left add l acc)).
  { induction l as [|x l IH]; intros acc Hacc; simpl; [assumption|].
    apply IH, wf_add. }
  apply H, wf_nil.
Qed.

Lemma psum_app l1 l2 : psum (l1 ++ l2) ≈ padd (psum l1) (psum l2).
Proof.
  induction l1 as [|x l1 IH]; simpl; [reflexivity|].
  rewrite IH. ring.
Qed.

Lemma coef_firstn n (f : poly) j :
  coef (firstn n f) j = if (j <? n)%nat then coef f j else 0.
Proof.
  revert f j. induction n as [|n IH]; intros f j.
  - simpl. apply coef_nil.
  - destruct f as [|a f]; simpl firstn.
    + rewrite coef_nil. now destruct (j <? S n)%nat.
    + destruct j as [|j]; [reflexivity|]. rewrite !coef_cons_S. apply IH.
Qed.

Lemma firstn_succ_peq n (f : poly) :
  firstn (S n) f ≈ padd (firstn n f) (pmul [coef f n] (shift one n)).
Proof.
  rewrite <- pscale_pmul. by_coef. intros j.
  rewrite coef_padd, coef_pscale, !coef_firstn, coef_shift_one.
  destruct (Nat.ltb_spec j (S n)), (Nat.ltb_spec j n), (Nat.eqb_spec j n);
    subst; lia.
Qed.

Lemma enumerate_map_seq {A B : Type} (D : nat -> A) (F : nat * A -> B) n k :
  map F (enumerate_from k (map D (seq k n))) = map (fun i => F (i, D i)) (seq k n).
Proof.
  revert k. induction n as [|n IH]; intros k; [reflexivity|].
  simpl. now rewrite IH.
Qed.

(** ** The memoisation is transparent *)

(** Every entry of the cache is the division of its monomial by [phi]. *)
Definition cache_ok (self : DevelopingValuation) (c : gmap nat (poly * poly))
  : Prop :=
  forall d qr, c !! d = Some qr -> qr = quo_rem (shift one d) (phi self).

Lemma run_bind {A B : Type} (m : state A) (k : A -> state B) c a c' :
  m c = (a, c') -> (m ≫= k) c = k a c'.
Proof. intros E. unfold mbind, state_bind. now rewrite E. Qed.

Lemma cache_ok_empty self : cache_ok self ∅.
Proof. intros d qr H. rewrite lookup_empty in H. discriminate. Qed.

Lemma quo_rem_monomial_run self d c :
  cache_ok self c ->
  exists c', __quo_rem_monomial self d c = (quo_rem (shift one d) (phi self), c')
             /\ cache_ok self c'.
Proof.
  intros Hc. unfold __quo_rem_monomial.
  destruct (c !! d) as [qr|] eqn:E.
  - exists c. split; [|assumption]. now rewrite (Hc d qr E).
  - eexists. split; [reflexivity|].
    intros d' qr' H. destruct (decide (d = d')) as [->|Hne].
    + rewrite lookup_insert_eq in H. congruence.
    + rewrite lookup_insert_ne in H by assumption. now apply Hc.
Qed.

Lemma mapM_quo_rem_monomial_run self l c :
  cache_ok self c ->
  exists c',
    mapM (__quo_rem_monomial self) l c
    = (map (fun d => quo_rem (shift one d) (phi self)) l, c')
    /\ cache_ok self c'.
Proof.
  revert c. induction l as [|d l IH]; intros c Hc.
  - exists c. split; [reflexivity | assumption].
  - destruct (quo_rem_monomial_run self d c Hc) as (c1 & E1 & Hc1).
    destruct (IH c1 Hc1) as (c2 & E2 & Hc2).
    exists c2. split; [|assumption].
    cbn [mapM]. rewrite (run_bind _ _ _ _ _ E1).
    now rewrite (run_bind _ _ _ _ _ E2).
Qed.

Lemma quo_rem_run self f c :
  cache_ok self c ->
  exists c', __quo_rem self f c = (quo_rem_by_monomials (phi self) f, c')
             /\ cache_ok self c'.
Proof.
  intros Hc. unfold __quo_rem.
  destruct (mapM_quo_rem_monomial_run self
              (seq 0 (Z.to_nat (degree f + 1))) c Hc) as (c' & E & Hc').
  exists c'. split; [|assumption].
  now rewrite (run_bind _ _ _ _ _ E).
Qed.

(** ** Division through the monomials *)

Lemma coef_psum_zero l j :
  (forall p, In p l -> coef p j = 0) -> coef (psum l) j = 0.
Proof.
  induction l as [|x l IH]; intros H; simpl.
  - apply coef_nil.
  - rewrite coef_padd, (H x), IH; [lia | | now left].
    intros p Hp. apply H. now right.
Qed.

Section LinearDivision.
Variables (key f : poly) (m : nat) (G H : nat -> poly).
Hypothesis term_division :
  forall i, pmul [coef f i] (shift one i) ≈ padd (pmul (G i) key) (H i).
Hypothesis remainder_small :
  forall i j, (m <= j)%nat -> coef (H i) j = 0.
Hypothesis quotient_small :
  forall i j, (S i <= j + m)%nat -> coef (G i) j = 0.

Lemma division_of_prefix n :
  firstn n f ≈ padd (pmul (psum (map G (seq 0 n))) key) (psum (map H (seq 0 n)))
  /\ (forall j, (m <= j)%nat -> coef (psum (map H (seq 0 n))) j = 0)
  /\ (forall j, (n <= j + m)%nat -> coef (psum (map G (seq 0 n))) j = 0).
Proof using term_division remainder_small quotient_small.
  split; [|split].
  - induction n as [|n IH].
    + simpl. by_coef. reflexivity.
    + rewrite firstn_succ_peq, IH, term_division.
      rewrite seq_S, !map_app, !psum_app. simpl. ring.
  - intros j Hj. apply coef_psum_zero. intros p (i & <- & _)%in_map_iff.
    now apply remainder_small.
  - intros j Hj. apply coef_psum_zero. intros p (i & <- & Hi)%in_map_iff.
    apply in_seq in Hi. apply quotient_small. lia.
Qed.
End LinearDivision.

Lemma degree_succ_length (f : poly) : Z.to_nat (degree f + 1) = length f.
Proof. unfold degree. lia. Qed.

Lemma quo_rem_by_monomials_eq key f :
  quo_rem_by_monomials key f
  = (py_sum (map (fun i => smul (coef f i) (fst (quo_rem (shift one i) key)))
                 (seq 0 (length f))),
     py_sum (map (fun i => smul (coef f i) (snd (quo_rem (shift one i) key)))
                 (seq 0 (length f)))).
Proof.
  unfold quo_rem_by_monomials, enumerate.
  rewrite degree_succ_length, !enumerate_map_seq.
  f_equal; f_equal; apply map_ext; intros i;
    now destruct (quo_rem (shift one i) key).
Qed.

Lemma quo_rem_by_monomials_spec key m f q r :
  monic_of_degree key m -> quo_rem_by_monomials key f = (q, r) ->
  f ≈ padd (pmul q key) r /\ wf q /\ wf r
  /\ (forall i, (m <= i)%nat -> coef r i = 0)
  /\ (forall i, (length f <= i + m)%nat -> coef q i = 0).
Proof.
  intros Hkey E. rewrite quo_rem_by_monomials_eq in E.
  set (G := fun i => smul (coef f i) (fst (quo_rem (shift one i) key))) in E.
  set (H := fun i => smul (coef f i) (snd (quo_rem (shift one i) key))) in E.
  injection E as <- <-.
  destruct (division_of_prefix key f m G H) with (n := length f)
    as (H1 & H2 & H3).
  - intros i. unfold G, H.
    destruct (quo_rem (shift one i) key) as [g h] eqn:Ei.
    destruct (quo_rem_spec key m _ g h Hkey Ei) as (Hi & _).
    cbn [fst snd]. rewrite !smul_peq. rewrite Hi at 1. ring.
  - intros i j Hj. unfold H.
    destruct (quo_rem (shift one i) key) as [g h] eqn:Ei.
    destruct (quo_rem_spec key m _ g h Hkey Ei) as (_ & _ & _ & Hi & _).
    cbn [snd]. unfold smul. rewrite coef_norm, coef_pscale, Hi by assumption.
    lia.
  - intros i j Hj. unfold G.
    destruct (quo_rem (shift one i) key) as [g h] eqn:Ei.
    destruct (quo_rem_spec key m _ g h Hkey Ei) as (_ & _ & _ & _ & Hi).
    cbn [fst]. unfold smul. rewrite coef_norm, coef_pscale, Hi; [lia|].
    rewrite length_shift_one. assumption.
  - rewrite firstn_all in H1.
    split; [|split; [|split; [|split]]]; try apply wf_py_sum.
    + now rewrite !py_sum_peq.
    + intros i Hi. rewrite (peq_coef _ _ (py_sum_peq _)). now apply H2.
    + intros i Hi. rewrite (peq_coef _ _ (py_sum_peq _)). now apply H3.
Qed.

(** ** Uniqueness of the quotient and the remainder *)

Lemma pmul_zero_l d g : d ≈ [] -> pmul d g ≈ [].
Proof. intros H. now rewrite H. Qed.

Lemma coef_pmul_top g m :
  monic_of_degree g m ->
  forall d k, (forall i, (k < i)%nat -> coef d i = 0) ->
              coef (pmul d g) (k + m) = coef d k.
Proof.
  intros [Hlen Hlead]. induction d as [|a d IH]; intros k Hk.
  - now rewrite !coef_nil.
  - cbn [pmul]. rewrite coef_padd, coef_pscale. destruct k as [|k].
    + assert (Hd : d ≈ []).
      { by_coef. intros i. rewrite coef_nil.
        rewrite <- (coef_cons_S a d i). apply Hk. lia. }
      cbn [Nat.add]. rewrite Hlead, coef_cons_0.
      destruct m as [|m]; coefs; [lia|].
      rewrite (peq_coef _ _ (pmul_zero_l d g Hd)). coefs. lia.
    + rewrite (coef_overflow g (S k + m)) by lia.
      cbn [Nat.add]. rewrite !coef_cons_S, IH; [lia|].
      intros i Hi. rewrite <- (coef_cons_S a d i). apply Hk. lia.
Qed.

Lemma multiple_small_zero g m d :
  monic_of_degree g m ->
  (forall i, (m <= i)%nat -> coef (pmul d g) i = 0) -> d ≈ [].
Proof.
  intros Hg Hsmall. apply norm_nil_peq.
  destruct (norm d) as [|b e] eqn:E; [reflexivity|]. exfalso.
  assert (Hwf : wf (b :: e)) by (rewrite <- E; apply wf_norm).
  apply (wf_lead_nonzero _ Hwf); [discriminate|].
  set (k := (length (b :: e) - 1)%nat).
  rewrite <- (coef_pmul_top g m Hg (b :: e) k).
  - rewrite <- E. rewrite (peq_coef _ _ (pmul_proper _ _ (norm_peq d) g g
                                          (reflexivity g))).
    apply Hsmall. lia.
  - intros i Hi. apply coef_overflow. subst k. simpl in *. lia.
Qed.

Lemma division_unique g m q r q' r' :
  monic_of_degree g m ->
  padd (pmul q g) r ≈ padd (pmul q' g) r' ->
  (forall i, (m <= i)%nat -> coef r i = 0) ->
  (forall i, (m <= i)%nat -> coef r' i = 0) ->
  q ≈ q' /\ r ≈ r'.
Proof.
  intros Hg E Hr Hr'.
  assert (Hd : psub q q' ≈ []).
  { apply (multiple_small_zero g m); [assumption|]. intros i Hi.
    assert (Hm : pmul (psub q q') g ≈ psub r' r).
    { transitivity (psub (padd (pmul q g) r) (padd (pmul q' g) r)); [ring|].
      rewrite E. ring. }
    rewrite (peq_coef _ _ Hm), coef_psub, Hr, Hr' by assumption. lia. }
  assert (Hq : q ≈ q').
  { transitivity (padd (psub q q') q'); [ring|]. rewrite Hd. ring. }
  split; [assumption|].
  transitivity (psub (padd (pmul q g) r) (pmul q g)); [ring|].
  rewrite E, Hq. ring.
Qed.

(** [__quo_rem] computes the quotient and the remainder of [f] by [phi]. *)
Lemma quo_rem_by_monomials_quo_rem key m f :
  monic_of_degree key m -> quo_rem_by_monomials key f = quo_rem f key.
Proof.
  intros Hkey.
  destruct (quo_rem_by_monomials key f) as [q r] eqn:E.
  destruct (quo_rem f key) as [q' r'] eqn:E'.
  destruct (quo_rem_by_monomials_spec key m f q r Hkey E)
    as (H1 & Hq & Hr & H2 & _).
  destruct (quo_rem_spec key m f q' r' Hkey E') as (H1' & Hq' & Hr' & H2' & _).
  destruct (division_unique key m q r q' r' Hkey) as [Eq Er];
    [now rewrite <- H1, <- H1' | assumption..|].
  f_equal; now apply wf_peq_eq.
Qed.

(** ** The division loop *)

Lemma coefficients_loop_run self fuel f c :
  cache_ok self c ->
  exists c', __coefficients self fuel f c = (division_loop (phi self) fuel f, c')
             /\ cache_ok self c'.
Proof.
  revert f c. induction fuel as [|fuel IH]; intros f c Hc;
    cbn [__coefficients division_loop].
  - exists c. split; [|assumption]. destruct (0 <=? degree f); reflexivity.
  - destruct (0 <=? degree f); [|exists c; split; [reflexivity | assumption]].
    destruct (quo_rem_run self f c Hc) as (c1 & E1 & Hc1).
    destruct (quo_rem_by_monomials (phi self) f) as [q r].
    destruct (IH q c1 Hc1) as (c2 & E2 & Hc2).
    exists c2. split; [|assumption].
    rewrite (run_bind _ _ _ _ _ E1). now rewrite (run_bind _ _ _ _ _ E2).
Qed.

(** The sum [c_0 + phi*(c_1 + phi*(...))]. *)
Definition hsum (key : poly) (cs : list poly) : poly :=
  fold_right (fun c acc => padd c (pmul key acc)) [] cs.

Lemma expansion_sum_from_hsum key i cs :
  expansion_sum_from key i cs ≈ pmul (pow key i) (hsum key cs).
Proof.
  revert i. induction cs as [|c cs IH]; intros i; simpl.
  - unfold zero. now rewrite pmul_nil_r.
  - rewrite add_peq, mul_peq, IH. simpl. rewrite mul_peq. ring.
Qed.

Lemma expansion_sum_hsum key cs : expansion_sum key cs ≈ hsum key cs.
Proof.
  unfold expansion_sum. rewrite expansion_sum_from_hsum. simpl.
  apply pmul_1_l.
Qed.

Lemma wf_expansion_sum key cs : wf (expansion_sum key cs).
Proof.
  unfold expansion_sum. destruct cs; simpl; [apply wf_nil | apply wf_add].
Qed.

Lemma degree_nonneg (f : poly) : (0 <=? degree f) = negb (is_zero f).
Proof.
  unfold degree. destruct f; simpl; [reflexivity|].
  apply Z.leb_le. lia.
Qed.

Lemma division_loop_fuel key fuel fuel' f cs :
  division_loop key fuel f = Some cs -> (fuel <= fuel')%nat ->
  division_loop key fuel' f = Some cs.
Proof.
  revert fuel' f cs. induction fuel as [|fuel IH]; intros fuel' f cs;
    cbn [division_loop].
  - destruct (0 <=? degree f) eqn:Ed; [discriminate|].
    intros [= <-] _. destruct fuel'; cbn [division_loop]; now rewrite Ed.
  - destruct (0 <=? degree f) eqn:Ed.
    + destruct (quo_rem_by_monomials key f) as [q r] eqn:E.
      destruct (division_loop key fuel q) as [cs'|] eqn:E'; [|discriminate].
      intros [= <-] Hle. destruct fuel' as [|fuel']; [lia|].
      cbn [division_loop]. rewrite Ed, E.
      rewrite (IH fuel' q cs' E') by lia. reflexivity.
    + intros [= <-] _. destruct fuel'; cbn [division_loop]; now rewrite Ed.
Qed.

Section DivisionLoop.
Variables (key : poly) (m : nat).
Hypothesis key_monic : monic_of_degree key m.

Lemma division_loop_sum fuel f cs :
  division_loop key fuel f = Some cs -> hsum key cs ≈ f.
Proof using key_monic.
  revert f cs. induction fuel as [|fuel IH]; intros f cs; cbn [division_loop];
    rewrite degree_nonneg; destruct f as [|a f]; cbn [is_zero negb];
    try discriminate; try (intros [= <-]; reflexivity).
  destruct (quo_rem_by_monomials key (a :: f)) as [q r] eqn:E.
  destruct (division_loop key fuel q) as [cs'|] eqn:E'; [|discriminate].
  intros [= <-]. simpl. rewrite (IH q cs' E').
  destruct (quo_rem_by_monomials_spec key m _ q r key_monic E) as (H1 & _).
  rewrite H1. ring.
Qed.

Lemma division_loop_small fuel f cs :
  division_loop key fuel f = Some cs ->
  Forall (fun c => wf c /\ (length c <= m)%nat) cs.
Proof using key_monic.
  revert f cs. induction fuel as [|fuel IH]; intros f cs; cbn [division_loop];
    rewrite degree_nonneg; destruct f as [|a f]; cbn [is_zero negb];
    try discriminate; try (intros [= <-]; constructor).
  destruct (quo_rem_by_monomials key (a :: f)) as [q r] eqn:E.
  destruct (division_loop key fuel q) as [cs'|] eqn:E'; [|discriminate].
  intros [= <-].
  destruct (quo_rem_by_monomials_spec key m _ q r key_monic E)
    as (_ & _ & Hr & H2 & _).
  constructor.
  - split; [assumption | now apply wf_length_le].
  - now apply (IH q).
Qed.

Hypothesis key_not_constant : (1 <= m)%nat.

Lemma division_loop_terminates fuel f :
  (length f <= fuel)%nat -> exists cs, division_loop key fuel f = Some cs.
Proof using key_monic key_not_constant.
  revert f. induction fuel as [|fuel IH]; intros f Hf; cbn [division_loop];
    rewrite degree_nonneg; destruct f as [|a f]; cbn [is_zero negb];
    try (now exists []); try (exfalso; simpl in Hf; lia).
  destruct (quo_rem_by_monomials key (a :: f)) as [q r] eqn:E.
  destruct (quo_rem_by_monomials_spec key m _ q r key_monic E)
    as (_ & Hq & _ & _ & H3).
  destruct (IH q) as [cs' E'].
  - assert (length q <= length (a :: f) - m)%nat.
    { apply wf_length_le; [assumption|]. intros i Hi. apply H3. lia. }
    simpl in *. lia.
  - rewrite E'. now exists (r :: cs').
Qed.

End DivisionLoop.

(** ** Substitution *)

Lemma const_zero : [0] ≈ [].
Proof. by_coef. intros [|i]; coefs; reflexivity. Qed.

Lemma const_add a b : [a + b] ≈ padd [a] [b].
Proof. reflexivity. Qed.

Lemma const_mul a b : [a * b] ≈ pmul [a] [b].
Proof. cbn [pmul]. by_coef. intros [|[|i]]; coefs; lia. Qed.

Lemma pcomp_const a g : pcomp [a] g ≈ [a].
Proof. cbn [pcomp]. rewrite pmul_nil_r. apply padd_0_r. Qed.

Lemma pcomp_norm f g : pcomp (norm f) g ≈ pcomp f g.
Proof.
  induction f as [|a f IH]; [reflexivity|].
  cbn [norm pcomp]. destruct (norm f) as [|b q] eqn:E.
  - rewrite <- IH. cbn [pcomp]. rewrite pmul_nil_r, padd_0_r.
    destruct (Z.eqb_spec a 0) as [->|Ha].
    + now rewrite const_zero.
    + apply pcomp_const.
  - change (pcomp (a :: b :: q) g) with (padd [a] (pmul g (pcomp (b :: q) g))).
    now rewrite IH.
Qed.

Lemma pcomp_proper_l f f' g : f ≈ f' -> pcomp f g ≈ pcomp f' g.
Proof.
  intros H. rewrite <- (pcomp_norm f), <- (pcomp_norm f').
  now rewrite (peq_norm f f' H).
Qed.

Lemma pcomp_proper_r f g g' : g ≈ g' -> pcomp f g ≈ pcomp f g'.
Proof.
  intros H. induction f as [|a f IH]; cbn [pcomp]; [reflexivity|].
  now rewrite IH, H.
Qed.

#[export] Instance pcomp_proper : Proper (peq ==> peq ==> peq) pcomp.
Proof.
  intros f f' Hf g g' Hg.
  rewrite (pcomp_proper_l f f' g Hf). now apply pcomp_proper_r.
Qed.

Lemma pcomp_padd p q g : pcomp (padd p q) g ≈ padd (pcomp p g) (pcomp q g).
Proof.
  revert q. induction p as [|a p IH]; intros q; [reflexivity|].
  destruct q as [|b q].
  - change (padd (a :: p) []) with (a :: p).
    change (pcomp [] g) with (@nil Z). now rewrite padd_0_r.
  - change (padd (a :: p) (b :: q)) with ((a + b) :: padd p q).
    cbn [pcomp]. rewrite IH, const_add. ring.
Qed.

Lemma pcomp_pscale c p g : pcomp (pscale c p) g ≈ pmul [c] (pcomp p g).
Proof.
  induction p as [|a p IH]; cbn [pscale map pcomp].
  - now rewrite pmul_nil_r.
  - fold (pscale c p). rewrite IH, const_mul. ring.
Qed.

Lemma pcomp_shift p g : pcomp (0 :: p) g ≈ pmul g (pcomp p g).
Proof. cbn [pcomp]. rewrite const_zero. ring. Qed.

Lemma pcomp_pmul p q g : pcomp (pmul p q) g ≈ pmul (pcomp p g) (pcomp q g).
Proof.
  induction p as [|a p IH]; [reflexivity|].
  cbn [pmul pcomp].
  rewrite pcomp_padd, pcomp_pscale, pcomp_shift, IH. ring.
Qed.

Lemma pcomp_assoc f h g : pcomp (pcomp f h) g ≈ pcomp f (pcomp h g).
Proof.
  induction f as [|a f IH]; [reflexivity|].
  cbn [pcomp]. rewrite pcomp_padd, pcomp_pmul, IH, pcomp_const. reflexivity.
Qed.

Lemma pcomp_gen f : pcomp f [0; 1] ≈ f.
Proof.
  induction f as [|a f IH]; [reflexivity|].
  cbn [pcomp]. rewrite IH. symmetry. apply cons_pmul.
Qed.

(** Linear key polynomials [x + c] and the substitution [x - c]. *)
Lemma linear_key_shape key :
  wf key -> monic_of_degree key 1 -> key = [coef key 0; 1].
Proof.
  intros _ [Hlen Hlead]. destruct key as [|c [|d [|e key]]]; try discriminate.
  cbn in Hlead. now subst d.
Qed.

Lemma shift_argument_peq c : sub gen (constant c) ≈ [- c; 1].
Proof.
  unfold sub, constant, gen. rewrite norm_peq. by_coef. intros i.
  rewrite coef_psub, coef_norm. destruct i as [|[|i]]; coefs; lia.
Qed.

Lemma shift_then_key c : pcomp [- c; 1] [c; 1] ≈ [0; 1].
Proof.
  cbn [pcomp pmul]. by_coef. intros [|[|[|i]]]; coefs; lia.
Qed.

Lemma key_then_shift c : pcomp [c; 1] [- c; 1] ≈ [0; 1].
Proof.
  cbn [pcomp pmul]. by_coef. intros [|[|[|i]]]; coefs; lia.
Qed.

Lemma hsum_constants key g : hsum key (map constant g) ≈ pcomp g key.
Proof.
  induction g as [|a g IH]; [reflexivity|].
  simpl map. cbn [hsum fold_right pcomp]. fold (hsum key (map constant g)).
  rewrite IH. unfold constant. now rewrite norm_peq.
Qed.

(** ** The linear case *)

Section LinearKey.
Variable c : Z.
Let key : poly := [c; 1].
Let h : poly := sub gen (constant c).

Lemma linear_key_monic : monic_of_degree key 1.
Proof using Type. split; reflexivity. Qed.

Lemma pcomp_key_h : pcomp key h ≈ [0; 1].
Proof using Type.
  unfold h. rewrite (pcomp_proper_r key _ _ (shift_argument_peq c)).
  apply key_then_shift.
Qed.

Lemma pcomp_h_key : pcomp h key ≈ [0; 1].
Proof using Type.
  unfold h. rewrite (pcomp_proper_l _ _ key (shift_argument_peq c)).
  apply shift_then_key.
Qed.

Lemma pcomp_h_inverse f : pcomp (pcomp f h) key ≈ f.
Proof using Type.
  rewrite pcomp_assoc, (pcomp_proper_r f _ _ pcomp_h_key). apply pcomp_gen.
Qed.

Lemma linear_expansion_sum f : hsum key (map constant (subst f h)) ≈ f.
Proof using Type.
  rewrite hsum_constants. unfold subst.
  rewrite (pcomp_norm (pcomp f h) key). apply pcomp_h_inverse.
Qed.

Lemma linear_expansion_small f :
  Forall (fun p => wf p /\ (length p <= 1)%nat) (map constant (subst f h)).
Proof using Type.
  induction (subst f h) as [|a g IH]; simpl; constructor; [|assumption].
  split; [apply wf_norm|]. unfold constant. simpl.
  destruct (a =? 0); simpl; lia.
Qed.

Lemma division_loop_linear fuel f :
  wf f -> (length f <= fuel)%nat ->
  division_loop key fuel f = Some (map constant (subst f h)).
Proof using Type.
  revert f. induction fuel as [|fuel IH]; intros f Hwf Hlen;
    (destruct f as [|a f]; [reflexivity|]); [simpl in Hlen; lia|].
  cbn [division_loop]. rewrite degree_nonneg. cbn [is_zero negb].
  destruct (quo_rem_by_monomials key (a :: f)) as [q r] eqn:E.
  destruct (quo_rem_by_monomials_spec key 1 _ q r linear_key_monic E)
    as (H1 & Hq & Hr & H2 & H3).
  assert (Hlq : (length q <= fuel)%nat).
  { assert (length q <= length (a :: f) - 1)%nat.
    { apply wf_length_le; [assumption|]. intros i Hi. apply H3. lia. }
    simpl in *. lia. }
  rewrite (IH q Hq Hlq). cbn [fmap option_fmap option_map]. f_equal.
  set (r0 := coef r 0).
  assert (Hr0 : r ≈ [r0]).
  { by_coef. intros [|i]; [reflexivity|]. rewrite H2 by lia.
    now rewrite coef_cons_S, coef_nil. }
  assert (Hrc : r = constant r0).
  { apply wf_peq_eq; [assumption | apply wf_norm|].
    unfold constant. now rewrite norm_peq. }
  assert (Hf : pcomp (a :: f) h ≈ r0 :: pcomp q h).
  { rewrite (pcomp_proper_l _ _ h H1), pcomp_padd, pcomp_pmul, pcomp_key_h.
    rewrite (pcomp_proper_l _ _ h Hr0), pcomp_const.
    rewrite (cons_pmul r0 (pcomp q h)). ring. }
  unfold subst. rewrite (peq_norm _ _ Hf). cbn [norm].
  destruct (norm (pcomp q h)) as [|b Q] eqn:EQ.
  - assert (Hq0 : q ≈ []).
    { rewrite <- (pcomp_h_inverse q).
      now rewrite (pcomp_proper_l _ _ key (norm_nil_peq _ EQ)). }
    destruct (Z.eqb_spec r0 0) as [Hz|Hnz].
    + exfalso. assert (Hnil : a :: f ≈ []).
      { rewrite H1, Hq0, Hr0, Hz, const_zero. reflexivity. }
      apply norm_zero in Hnil. unfold wf in Hwf. congruence.
    + simpl. now rewrite Hrc.
  - simpl map. now rewrite Hrc.
Qed.
End LinearKey.

(** ** The expansion computed by [coefficients] *)

(** The key polynomial as the constructor leaves it: monic and not
    constant. *)
Definition key_ok (self : DevelopingValuation) : Prop :=
  wf (phi self)
  /\ is_constant (phi self) = false
  /\ is_monic (phi self) = true.

(** The argument is an element of the domain itself. *)
Definition in_domain_of (self : DevelopingValuation) (f : Element) : Prop :=
  parent f = ring_id (domain self) /\ wf (coeffs f).

Lemma key_ok_monic self :
  key_ok self ->
  exists m, monic_of_degree (phi self) m /\ (1 <= m)%nat
            /\ degree (phi self) = Z.of_nat m.
Proof.
  intros (_ & Hc & Hm). exists (length (phi self) - 1)%nat.
  pose proof (is_monic_degree _ Hm) as Hd. split; [assumption|].
  unfold is_constant, degree in *. apply Z.leb_gt in Hc. lia.
Qed.

Lemma degree_lt_length (p key : poly) m :
  degree key = Z.of_nat m -> (length p <= m)%nat -> degree p < degree key.
Proof. unfold degree. lia. Qed.

Lemma expansion_sum_eq key cs f :
  wf f -> hsum key cs ≈ f -> expansion_sum key cs = f.
Proof.
  intros Hf H. apply wf_peq_eq; [apply wf_expansion_sum | assumption|].
  now rewrite expansion_sum_hsum.
Qed.

Lemma general_path_run self fuel f c :
  key_ok self -> cache_ok self c -> (length f <= fuel)%nat ->
  exists cs c',
    __coefficients self fuel f c = (Some cs, c')
    /\ cache_ok self c'
    /\ division_loop (phi self) fuel f = Some cs
    /\ hsum (phi self) cs ≈ f
    /\ Forall (fun p => wf p /\ degree p < degree (phi self)) cs.
Proof.
  intros Hkey Hc Hlen.
  destruct (key_ok_monic self Hkey) as (m & Hm & H1m & Hdeg).
  destruct (division_loop_terminates _ m Hm H1m fuel f Hlen) as [cs Hcs].
  destruct (coefficients_loop_run self fuel f c Hc) as (c' & E & Hc').
  exists cs, c'. rewrite E, Hcs.
  split; [reflexivity|]. split; [assumption|]. split; [reflexivity|].
  split; [now apply (division_loop_sum _ m Hm fuel)|].
  eapply Forall_impl; [apply (division_loop_small _ m Hm fuel f cs Hcs)|].
  intros p [Hp Hl]. split; [assumption|]. now apply (degree_lt_length _ _ m).
Qed.

Lemma linear_key self :
  key_ok self -> degree (phi self) = 1 ->
  phi self = [coef (phi self) 0; 1].
Proof.
  intros Hkey Hd. destruct (key_ok_monic self Hkey) as (m & Hm & _ & Hdeg).
  assert (m = 1%nat) as -> by lia.
  apply linear_key_shape; [apply Hkey | assumption].
Qed.

Lemma coefficients_run self fuel f c :
  key_ok self -> cache_ok self c -> in_domain_of self f ->
  (length (coeffs f) <= fuel)%nat ->
  exists cs c',
    coefficients self fuel f c = (Ok (Some cs), c')
    /\ cache_ok self c'
    /\ hsum (phi self) cs ≈ coeffs f
    /\ Forall (fun p => wf p /\ degree p < degree (phi self)) cs.
Proof.
  intros Hkey Hc [Hpar Hwf] Hlen. unfold coefficients.
  rewrite Hpar, Nat.eqb_refl. cbn [negb].
  destruct (Z.eqb_spec (degree (phi self)) 1) as [Hd|Hd].
  - eexists _, c. split; [reflexivity|]. split; [assumption|].
    pose proof (linear_key self Hkey Hd) as Hshape.
    unfold coefficients_dense. split.
    + rewrite Hshape at 1. apply linear_expansion_sum.
    + eapply Forall_impl; [apply linear_expansion_small|].
      intros p [Hp Hl]. split; [assumption|]. unfold degree in *. lia.
  - destruct (general_path_run self fuel (coeffs f) c Hkey Hc Hlen)
      as (cs & c' & E & Hc' & _ & Hsum & Hsmall).
    exists cs, c'. rewrite (run_bind _ _ _ _ _ E).
    split; [reflexivity|]. now split.
Qed.

(** ** The value group and [min] *)

Lemma value_leb_refl a : value_leb a a = true.
Proof. destruct a; simpl; [|reflexivity]. apply Qle_bool_iff, Qle_refl. Qed.

Lemma value_leb_total a b : value_leb a b = false -> value_leb b a = true.
Proof.
  destruct a as [x|], b as [y|]; simpl; try congruence.
  intros H. apply Qle_bool_iff.
  destruct (Qlt_le_dec x y) as [Hlt|Hle]; [|assumption].
  apply Qlt_le_weak, Qle_bool_iff in Hlt. congruence.
Qed.

Lemma value_leb_trans a b c :
  value_leb a b = true -> value_leb b c = true -> value_leb a c = true.
Proof.
  destruct a as [x|], b as [y|], c as [z|]; simpl; try congruence.
  rewrite !Qle_bool_iff. apply Qle_trans.
Qed.

Lemma value_eqb_refl a : value_eqb a a = true.
Proof. destruct a; simpl; [|reflexivity]. apply Qeq_bool_iff, Qeq_refl. Qed.

Definition min_step (m x : value) : value := if value_ltb x m then x else m.

Lemma min_step_le_l m x : value_leb (min_step m x) m = true.
Proof.
  unfold min_step, value_ltb. destruct (value_leb m x) eqn:E; simpl.
  - apply value_leb_refl.
  - now apply value_leb_total.
Qed.

Lemma min_step_le_r m x : value_leb (min_step m x) x = true.
Proof.
  unfold min_step, value_ltb. destruct (value_leb m x) eqn:E; simpl.
  - assumption.
  - apply value_leb_refl.
Qed.

Lemma fold_min_spec l w :
  let m := fold_left min_step l w in
  In m (w :: l) /\ Forall (fun x => value_leb m x = true) (w :: l).
Proof.
  revert w. induction l as [|x l IH]; intros w; simpl.
  - split; [now left|]. constructor; [apply value_leb_refl | constructor].
  - destruct (IH (min_step w x)) as [Hin Hall]. simpl in Hin.
    apply Forall_cons in Hall as [Hm Hall]. split.
    + destruct Hin as [Hin|Hin]; [|now right; right].
      rewrite <- Hin. unfold min_step. destruct (value_ltb x w); auto.
    + constructor; [|constructor; [|assumption]].
      * eapply value_leb_trans; [exact Hm | apply min_step_le_l].
      * eapply value_leb_trans; [exact Hm | apply min_step_le_r].
Qed.

Lemma py_min_spec l :
  l <> [] ->
  exists m, py_min l = Ok m /\ In m l
            /\ Forall (fun x => value_leb m x = true) l.
Proof.
  destruct l as [|w l]; [congruence|]. intros _.
  exists (fold_left min_step l w). split; [reflexivity|].
  apply fold_min_spec.
Qed.

(** ** The last index that matches *)

Lemma enumerate_from_app {A : Type} n (l1 l2 : list A) :
  enumerate_from n (l1 ++ l2)
  = enumerate_from n l1 ++ enumerate_from (n + length l1) l2.
Proof.
  revert n. induction l1 as [|x l1 IH]; intros n; simpl.
  - now rewrite Nat.add_0_r.
  - rewrite IH. do 3 f_equal. lia.
Qed.

Lemma py_last_snoc {A : Type} (l : list A) x : py_last (l ++ [x]) = Ok x.
Proof. unfold py_last. now rewrite rev_unit. Qed.

Definition matching_indices (P : value -> bool) (l : list value) : list nat :=
  map fst (List.filter (fun '(i, w) => P w) (enumerate l)).

Lemma matching_indices_snoc P l w :
  matching_indices P (l ++ [w])
  = matching_indices P l ++ (if P w then [length l] else []).
Proof.
  unfold matching_indices, enumerate.
  rewrite enumerate_from_app, List.filter_app, map_app. simpl.
  now destruct (P w).
Qed.

Lemma last_match_spec P l :
  (exists w, In w l /\ P w = true) ->
  exists i, py_last (matching_indices P l) = Ok i
            /\ (i < length l)%nat
            /\ P (nth i l Infinity) = true
            /\ forall j, (i < j < length l)%nat -> P (nth j l Infinity) = false.
Proof.
  induction l as [|w l IH] using rev_ind; intros (w0 & Hin & Hw0).
  - destruct Hin.
  - rewrite matching_indices_snoc, length_app. simpl.
    destruct (P w) eqn:Ew.
    + exists (length l). rewrite py_last_snoc.
      split; [reflexivity|]. split; [lia|]. split.
      * now rewrite nth_middle.
      * intros j Hj. lia.
    + rewrite app_nil_r. destruct IH as (i & Hi & Hlt & HP & Hmax).
      { apply in_app_iff in Hin as [Hin|[<-|[]]]; [now exists w0|congruence]. }
      exists i. split; [assumption|]. split; [lia|]. split.
      * now rewrite app_nth1.
      * intros j Hj. destruct (Nat.eq_dec j (length l)) as [->|Hne].
        -- now rewrite nth_middle.
        -- rewrite app_nth1 by lia. apply Hmax. lia.
Qed.

(** ** The contract of the abstract method [valuations] *)

(** An implementation of [valuations] returns one value per coefficient of
    the expansion of its argument. *)
Definition evaluator_contract (self : DevelopingValuation) : Prop :=
  forall f, wf f ->
    length (valuations self f) = length (expansion (phi self) f).

Lemma coefficients_expansion self fuel f c :
  key_ok self -> cache_ok self c -> in_domain_of self f ->
  (length (coeffs f) <= fuel)%nat ->
  exists c',
    coefficients self fuel f c
    = (Ok (Some (expansion (phi self) (coeffs f))), c')
    /\ cache_ok self c'.
Proof.
  intros Hkey Hc [Hpar Hwf] Hlen. unfold coefficients, expansion.
  rewrite Hpar, Nat.eqb_refl. cbn [negb].
  destruct (degree (phi self) =? 1).
  - exists c. now split.
  - destruct (general_path_run self fuel (coeffs f) c Hkey Hc Hlen)
      as (cs & c' & E & Hc' & Hloop & _).
    destruct (general_path_run self (length (coeffs f)) (coeffs f) c Hkey Hc
                (le_n _)) as (cs0 & _ & _ & _ & Hloop0 & _).
    rewrite (division_loop_fuel _ _ fuel _ _ Hloop0 Hlen) in Hloop.
    injection Hloop as <-.
    exists c'. rewrite (run_bind _ _ _ _ _ E), Hloop0. now split.
Qed.

Lemma expansion_sum_of self f :
  key_ok self -> wf f -> hsum (phi self) (expansion (phi self) f) ≈ f.
Proof.
  intros Hkey Hf.
  destruct (coefficients_run self (length f) (in_domain self f) ∅ Hkey
              (cache_ok_empty self)) as (cs & c1 & E1 & _ & Hsum & _);
    [now split | apply le_n |].
  destruct (coefficients_expansion self (length f) (in_domain self f) ∅ Hkey
              (cache_ok_empty self)) as (c2 & E2 & _);
    [now split | apply le_n |].
  rewrite E1 in E2. now injection E2 as -> _.
Qed.

Lemma expansion_nonempty self f :
  key_ok self -> wf f -> f <> [] -> expansion (phi self) f <> [].
Proof.
  intros Hkey Hf Hne Hnil.
  pose proof (expansion_sum_of self f Hkey Hf) as Hsum.
  rewrite Hnil in Hsum. simpl in Hsum. symmetry in Hsum.
  apply norm_zero in Hsum. unfold wf in Hf. congruence.
Qed.

Lemma expansion_zero key : expansion key [] = [].
Proof. unfold expansion. now destruct (degree key =? 1). Qed.

Lemma expansion_constant self a :
  key_ok self -> a <> 0 -> length (expansion (phi self) [a]) = 1%nat.
Proof.
  intros Hkey Ha. unfold expansion.
  destruct (degree (phi self) =? 1).
  - unfold coefficients_dense, subst.
    rewrite (peq_norm _ [a] (pcomp_const a _)). simpl.
    destruct (Z.eqb_spec a 0); [contradiction | reflexivity].
  - destruct (key_ok_monic self Hkey) as (m & Hm & H1m & _).
    cbn [length division_loop]. rewrite degree_nonneg. cbn [is_zero negb].
    destruct (quo_rem_by_monomials (phi self) [a]) as [q r] eqn:Eq.
    destruct (quo_rem_by_monomials_spec _ m _ q r Hm Eq)
      as (_ & Hq & _ & _ & H3).
    assert (Hlen : (length q <= 0)%nat).
    { apply wf_length_le; [assumption|]. intros i _. apply H3. simpl. lia. }
    destruct q; [reflexivity | simpl in Hlen; lia].
Qed.

Lemma valuations_nonempty self f :
  key_ok self -> evaluator_contract self -> wf f -> f <> [] ->
  valuations self f <> [].
Proof.
  intros Hkey Hev Hf Hne Hnil.
  apply (expansion_nonempty self f Hkey Hf Hne).
  apply length_zero_iff_nil. rewrite <- (Hev f Hf), Hnil. reflexivity.
Qed.

(** ** The example valuations meet the contract *)

Lemma length_enumerate_from {A : Type} n (l : list A) :
  length (enumerate_from n l) = length l.
Proof.
  revert n. induction l as [|x l IH]; intros n; simpl; [reflexivity|].
  now rewrite IH.
Qed.

Lemma term_valuations_contract P key mu :
  evaluator_contract
    {| _parent := P; _phi := key;
       valuations := Examples.term_valuations key mu |}.
Proof.
  intros f _. cbn [valuations phi _phi]. unfold Examples.term_valuations.
  rewrite length_map. apply length_enumerate_from.
Qed.

(** ** The lower convex hull *)

Lemma turn_left_of_first (ax ay bx by_ cx cy px py : Q) :
  (ax < bx -> ax <= px -> ax < cx ->
   0 <= (bx - ax) * (py - ay) - (by_ - ay) * (px - ax) ->
   (bx - ax) * (cy - ay) - (by_ - ay) * (cx - ax) <= 0 ->
   0 <= (cx - ax) * (py - ay) - (cy - ay) * (px - ax))%Q.
Proof.
  intros.
  assert (E : ((bx - ax) * ((cx - ax) * (py - ay) - (cy - ay) * (px - ax))
               == (cx - ax) * ((bx - ax) * (py - ay) - (by_ - ay) * (px - ax))
                  + (px - ax)
                    * (- ((bx - ax) * (cy - ay) - (by_ - ay) * (cx - ax))))%Q)
    by ring.
  nra.
Qed.

Lemma turn_left_of_second (ax ay bx by_ cx cy px py : Q) :
  (ax < bx -> bx < cx -> bx <= px -> px <= cx ->
   0 <= (cx - bx) * (py - by_) - (cy - by_) * (px - bx) ->
   (bx - ax) * (cy - ay) - (by_ - ay) * (cx - ax) <= 0 ->
   0 <= (cx - ax) * (py - ay) - (cy - ay) * (px - ax))%Q.
Proof.
  intros.
  assert (E : ((cx - bx) * ((cx - ax) * (py - ay) - (cy - ay) * (px - ax))
               == (cx - ax) * ((cx - bx) * (py - by_) - (cy - by_) * (px - bx))
                  + (cx - px)
                    * (- ((bx - ax) * (cy - ay) - (by_ - ay) * (cx - ax))))%Q)
    by ring.
  nra.
Qed.

Lemma cross_end a c : (cross a c c == 0)%Q.
Proof. unfold cross. ring. Qed.

Lemma cross_start a c : (cross a c a == 0)%Q.
Proof. unfold cross. ring. Qed.

(** Popping [b]: points right of [a] that were above [ab] or above [bc]
    are above [ac] when [b] itself is. *)
Lemma cross_after_pop (a b c p : point) :
  (fst a < fst b)%Z -> (fst b < fst c)%Z ->
  (fst a <= fst p)%Z -> (fst p <= fst c)%Z ->
  (cross a b c <= 0)%Q ->
  ((fst p <= fst b)%Z -> (0 <= cross a b p)%Q) ->
  ((fst b <= fst p)%Z -> (0 <= cross b c p)%Q) ->
  (0 <= cross a c p)%Q.
Proof.
  intros Hab Hbc Hap Hpc Hturn Hleft Hright. unfold cross in *.
  rewrite Zlt_Qlt in Hab, Hbc. pose proof Hap as Hap'. pose proof Hpc as Hpc'.
  rewrite Zle_Qle in Hap', Hpc'.
  destruct (Z_le_gt_dec (fst p) (fst b)) as [Hle|Hgt].
  - apply (turn_left_of_first _ _ (inject_Z (fst b)) (snd b)); auto.
    eapply Qlt_trans; eassumption.
  - assert (Hbp : (fst b <= fst p)%Z) by lia.
    apply (turn_left_of_second _ _ (inject_Z (fst b)) (snd b)); auto.
    now rewrite Zle_Qle in Hbp.
Qed.

Definition adjacent2 (l : list point) (v u : point) : Prop :=
  exists l1 l2, l = l1 ++ v :: u :: l2.

Definition adjacent3 (l : list point) (c b a : point) : Prop :=
  exists l1 l2, l = l1 ++ c :: b :: a :: l2.

Lemma adjacent2_cons x l v u :
  adjacent2 (x :: l) v u
  <-> (x = v /\ exists l2, l = u :: l2) \/ adjacent2 l v u.
Proof.
  split.
  - intros ([|y l1] & l2 & E); injection E as -> ->.
    + left. split; [reflexivity | now exists l2].
    + right. now exists l1, l2.
  - intros [[-> [l2 ->]] | (l1 & l2 & ->)].
    + now exists [], l2.
    + now exists (x :: l1), l2.
Qed.

Lemma adjacent3_cons x l c b a :
  adjacent3 (x :: l) c b a
  <-> (x = c /\ exists l2, l = b :: a :: l2) \/ adjacent3 l c b a.
Proof.
  split.
  - intros ([|y l1] & l2 & E); injection E as -> ->.
    + left. split; [reflexivity | now exists l2].
    + right. now exists l1, l2.
  - intros [[-> [l2 ->]] | (l1 & l2 & ->)].
    + now exists [], l2.
    + now exists (x :: l1), l2.
Qed.

Lemma adjacent2_in l v u : adjacent2 l v u -> In v l /\ In u l.
Proof.
  intros (l1 & l2 & ->). split; apply in_app_iff; right; simpl; auto.
Qed.

(** The stack of [hull_push], most recent vertex first, after the points
    [P] have been pushed. *)
Record stack_ok (P st : list point) : Prop := {
  ok_incl : forall p, In p st -> In p P;
  ok_desc : forall v u, adjacent2 st v u -> (fst u < fst v)%Z;
  ok_convex : forall c b a, adjacent3 st c b a -> (0 < cross a b c)%Q;
  ok_above : forall v u p,
      adjacent2 st v u -> In p P -> (fst u <= fst p <= fst v)%Z ->
      (0 <= cross u v p)%Q;
  ok_bottom : last st = head P
}.

Lemma adjacent2_nil v u : ~ adjacent2 [] v u.
Proof. intros ([|x l1] & l2 & [=]). Qed.

Lemma adjacent3_nil c b a : ~ adjacent3 [] c b a.
Proof. intros ([|x l1] & l2 & [=]). Qed.

Lemma stack_ok_nil : stack_ok [] [].
Proof.
  split.
  - intros p [].
  - intros v u H. now apply adjacent2_nil in H.
  - intros c b a H. now apply adjacent3_nil in H.
  - intros v u p H. now apply adjacent2_nil in H.
  - reflexivity.
Qed.

Lemma stack_ok_tail P b a rest :
  stack_ok P (b :: a :: rest) -> stack_ok P (a :: rest).
Proof.
  intros [H1 H2 H3 H4 H5]. split.
  - intros p Hp. apply H1. now right.
  - intros v u Hvu. apply H2, adjacent2_cons. now right.
  - intros c b' a' Hc. apply H3, adjacent3_cons. now right.
  - intros v u p Hvu. apply H4, adjacent2_cons. now right.
  - exact H5.
Qed.

Lemma stack_ok_push P c st :
  (forall p, In p P -> (fst p < fst c)%Z) ->
  stack_ok P st ->
  (forall t rest, st = t :: rest ->
     (forall b a l, rest = a :: l -> t = b -> (0 < cross a b c)%Q)
     /\ forall p, In p P -> (fst t <= fst p)%Z -> (0 <= cross t c p)%Q) ->
  stack_ok (P ++ [c]) (c :: st).
Proof.
  intros Hc [H1 H2 H3 H4 H5] Htop. split.
  - intros p [<-|Hp]; apply in_app_iff; [right; now left | left; auto].
  - intros v u [[<- [l2 ->]] | Hvu]%adjacent2_cons.
    + apply Hc, H1. now left.
    + now apply H2.
  - intros c' b a [[<- [l2 ->]] | Hc']%adjacent3_cons.
    + destruct (Htop b (a :: l2) eq_refl) as [Hturn _]. now apply (Hturn b a l2).
    + now apply H3.
  - intros v u p [[<- [l2 ->]] | Hvu]%adjacent2_cons Hp Hx.
    + apply in_app_iff in Hp as [Hp|[<-|[]]].
      * destruct (Htop u l2 eq_refl) as [_ Habove]. apply Habove; [assumption|lia].
      * rewrite cross_end. apply Qle_refl.
    + apply in_app_iff in Hp as [Hp|[<-|[]]].
      * now apply H4.
      * destruct (adjacent2_in _ _ _ Hvu) as [Hv _].
        apply H1, Hc in Hv. lia.
  - destruct st as [|t rest].
    + simpl in H5. destruct P; [reflexivity | discriminate].
    + change (last (c :: t :: rest)) with (last (t :: rest)). rewrite H5.
      destruct P as [|p0 P]; [|reflexivity].
      exfalso. apply (H1 t). now left.
Qed.

Lemma hull_push_ok P c :
  (forall p, In p P -> (fst p < fst c)%Z) ->
  forall st,
    stack_ok P st ->
    (forall t rest p, st = t :: rest -> In p P -> (fst t <= fst p)%Z ->
                      (0 <= cross t c p)%Q) ->
    stack_ok (P ++ [c]) (hull_push c st)
    /\ exists rest, hull_push c st = c :: rest.
Proof.
  intros Hc. induction st as [|b st IH]; intros Hok Hloop.
  - split; [|now exists []]. apply stack_ok_push; [assumption..|discriminate].
  - destruct st as [|a rest].
    + split; [|now exists [b]]. apply stack_ok_push; [assumption..|].
      intros t rest [= <- <-]. split; [discriminate|].
      intros p Hp Hx. now apply (Hloop b []).
    + cbn [hull_push]. destruct (Qle_bool (cross a b c) 0) eqn:Eturn.
      * apply Qle_bool_iff in Eturn. apply IH; [now apply (stack_ok_tail P b)|].
        intros t rest' p [= <- <-] Hp Hx.
        assert (Hab : (fst a < fst b)%Z).
        { apply (ok_desc _ _ Hok). now exists [], rest. }
        assert (Hb : In b P) by (apply (ok_incl _ _ Hok); now left).
        apply (cross_after_pop a b c p); auto.
        -- specialize (Hc p Hp). lia.
        -- intros Hle. apply (ok_above _ _ Hok); [now exists [], rest|assumption|lia].
        -- intros Hle. now apply (Hloop b (a :: rest)).
      * split; [|now exists (b :: a :: rest)].
        apply stack_ok_push; [assumption..|].
        intros t rest' [= <- <-]. split.
        -- intros b' a' l [= <- <-] <-. apply Qnot_le_lt. intros Hle.
           apply Qle_bool_iff in Hle. congruence.
        -- intros p Hp Hx. now apply (Hloop b (a :: rest)).
Qed.

(** The points come by strictly increasing abscissa. *)
Definition increasing (pts : list point) : Prop :=
  StronglySorted (fun p q => (fst p < fst q)%Z) pts.

Definition top_max (P st : list point) : Prop :=
  forall t rest p, st = t :: rest -> In p P -> (fst p < fst t)%Z \/ p = t.

Lemma hull_fold_ok pts :
  increasing pts ->
  forall P st,
    stack_ok P st -> top_max P st ->
    (forall p q, In p P -> In q pts -> (fst p < fst q)%Z) ->
    stack_ok (P ++ pts) (fold_left (fun stack c => hull_push c stack) pts st).
Proof.
  induction 1 as [|c pts Hsorted IH Hc]; intros P st Hok Htop Hlt.
  - now rewrite app_nil_r.
  - cbn [fold_left].
    destruct (hull_push_ok P c (fun p Hp => Hlt p c Hp (or_introl eq_refl))
                st Hok) as [Hok' [rest Erest]].
    { intros t rest p -> Hp Hx.
      destruct (Htop t rest p eq_refl Hp) as [Hlt'| ->]; [lia|].
      rewrite cross_start. apply Qle_refl. }
    change (P ++ c :: pts) with (P ++ [c] ++ pts). rewrite app_assoc.
    apply IH; [assumption| |].
    + intros t rest' p Et Hp. rewrite Erest in Et. injection Et as <- <-.
      apply in_app_iff in Hp as [Hp|[<-|[]]]; [left|now right].
      apply (Hlt p c Hp). now left.
    + intros p q Hp Hq. apply in_app_iff in Hp as [Hp|[<-|[]]].
      * apply Hlt; [assumption | now right].
      * rewrite Forall_forall in Hc. apply Hc. now apply list_elem_of_In.
Qed.

Lemma hull_push_head c st : exists rest, hull_push c st = c :: rest.
Proof.
  induction st as [|b st IH]; [now exists []|].
  destruct st as [|a rest]; [now exists [b]|].
  cbn [hull_push]. destruct (Qle_bool (cross a b c) 0); [exact IH|].
  now exists (b :: a :: rest).
Qed.

Lemma head_rev {A : Type} (l : list A) : head (List.rev l) = last l.
Proof.
  destruct l as [|x l] using rev_ind; [reflexivity|].
  now rewrite rev_unit, last_snoc.
Qed.

Lemma last_rev {A : Type} (l : list A) : last (List.rev l) = head l.
Proof. now rewrite <- (rev_involutive l) at 2; rewrite head_rev. Qed.

Lemma rev_adjacent2 st l1 l2 (u v : point) :
  List.rev st = l1 ++ u :: v :: l2 -> adjacent2 st v u.
Proof.
  intros E. exists (List.rev l2), (List.rev l1).
  rewrite <- (rev_involutive st), E, rev_app_distr. simpl.
  now rewrite <- !app_assoc.
Qed.

Lemma rev_adjacent3 st l1 l2 (a b c : point) :
  List.rev st = l1 ++ a :: b :: c :: l2 -> adjacent3 st c b a.
Proof.
  intros E. exists (List.rev l2), (List.rev l1).
  rewrite <- (rev_involutive st), E, rev_app_distr. simpl.
  now rewrite <- !app_assoc.
Qed.

(** What [NewtonPolygon] returns is the lower convex hull of the finite
    points: its vertices are among them, from the first to the last, by
    increasing abscissa, turning left at every vertex, and no finite point
    lies below an edge. *)
Definition lower_hull_of (pts hull : list point) : Prop :=
  (forall p, In p hull -> In p pts)
  /\ (forall l1 l2 u v, hull = l1 ++ u :: v :: l2 -> (fst u < fst v)%Z)
  /\ (forall l1 l2 a b c,
        hull = l1 ++ a :: b :: c :: l2 -> (0 < cross a b c)%Q)
  /\ (forall l1 l2 u v p,
        hull = l1 ++ u :: v :: l2 -> In p pts ->
        (fst u <= fst p <= fst v)%Z -> (0 <= cross u v p)%Q)
  /\ head hull = head pts
  /\ last hull = last pts.

Lemma NewtonPolygon_lower_hull pts :
  increasing (finite_points pts) ->
  lower_hull_of (finite_points pts) (NewtonPolygon pts).
Proof.
  intros Hinc. unfold NewtonPolygon.
  set (st := fold_left _ _ _).
  assert (Hok : stack_ok (finite_points pts) st).
  { apply (hull_fold_ok _ Hinc [] []).
    - apply stack_ok_nil.
    - intros t rest p [=].
    - intros p q []. }
  split; [|split; [|split; [|split; [|split]]]].
  - intros p Hp. apply in_rev in Hp. now apply (ok_incl _ _ Hok).
  - intros l1 l2 u v E. apply (ok_desc _ _ Hok), (rev_adjacent2 _ _ _ _ _ E).
  - intros l1 l2 a b c E. apply (ok_convex _ _ Hok), (rev_adjacent3 _ _ _ _ _ _ E).
  - intros l1 l2 u v p E. apply (ok_above _ _ Hok), (rev_adjacent2 _ _ _ _ _ E).
  - rewrite head_rev. apply (ok_bottom _ _ Hok).
  - rewrite last_rev. subst st.
    destruct (finite_points pts) as [|c l] using rev_ind; [reflexivity|].
    rewrite fold_left_app. cbn [fold_left].
    destruct (hull_push_head c (fold_left (fun stack c0 => hull_push c0 stack) l []))
      as [rest ->].
    now rewrite last_snoc.
Qed.

Lemma finite_points_cons i w pts :
  finite_points ((i, w) :: pts)
  = match w with
    | Finite y => (Z.of_nat i, y) :: finite_points pts
    | Infinity => finite_points pts
    end.
Proof. now destruct w. Qed.

Lemma finite_points_in n vals x y :
  In (x, y) (finite_points (enumerate_from n vals))
  <-> exists i, x = Z.of_nat (n + i) /\ nth_error vals i = Some (Finite y).
Proof.
  revert n. induction vals as [|w vals IH]; intros n.
  - split; [intros [] | intros ([|i] & _ & [=])].
  - cbn [enumerate_from]. rewrite finite_points_cons. split.
    + intros H.
      assert (Hrest : In (x, y) (finite_points (enumerate_from (S n) vals)) ->
                      exists i, x = Z.of_nat (n + i)
                                /\ nth_error (w :: vals) i = Some (Finite y)).
      { intros (i & -> & Hi)%IH. exists (S i). split; [f_equal; lia | exact Hi]. }
      destruct w as [q|]; [|now apply Hrest].
      destruct H as [[= <- <-] | H]; [|now apply Hrest].
      exists O. split; [f_equal; lia | reflexivity].
    + intros ([|i] & -> & Hi).
      * injection Hi as ->. left. f_equal. f_equal. lia.
      * assert (In (Z.of_nat (n + S i), y)
                  (finite_points (enumerate_from (S n) vals))).
        { apply IH. exists i. split; [f_equal; lia | exact Hi]. }
        destruct w; [now right | assumption].
Qed.

Lemma finite_points_increasing n vals :
  increasing (finite_points (enumerate_from n vals)).
Proof.
  revert n. induction vals as [|w vals IH]; intros n; [constructor|].
  cbn [enumerate_from]. rewrite finite_points_cons.
  destruct w as [q|]; [|apply IH].
  constructor; [apply IH|].
  apply Forall_forall. intros [x y] Hin%list_elem_of_In.
  apply finite_points_in in Hin as (i & -> & _). simpl. lia.
Qed.

(** ** What the constructor establishes *)

Lemma init_key_ok vals P phi0 self :
  (forall e p, coerce (parent_domain P) e = Some p -> wf p) ->
  __init__ vals P phi0 = Ok self -> key_ok self.
Proof.
  intros Hwf. unfold __init__.
  destruct (is_PolynomialRing (parent_domain P)); [|discriminate].
  destruct (ngens (parent_domain P) =? 1)%nat; [|discriminate].
  destruct (coerce (parent_domain P) phi0) as [p|] eqn:Ep; [|discriminate].
  destruct (is_constant p) eqn:Ec; [discriminate|].
  destruct (is_monic p) eqn:Em; [|discriminate].
  intros [= <-]. unfold key_ok. cbn [phi _phi].
  split; [now apply (Hwf phi0) | now split].
Qed.

(** ** Arguments outside the domain *)

Lemma coefficients_mismatch self fuel f c :
  parent f <> ring_id (domain self) ->
  coefficients self fuel f c
  = (Raise (ValueError "f must be in the domain of the valuation"), c).
Proof.
  intros H. unfold coefficients.
  apply Nat.eqb_neq in H. now rewrite H.
Qed.

Lemma call_mismatch self f :
  parent f <> ring_id (domain self) ->
  _call_ self f
  = Raise (ValueError
             "f must be in the domain of the valuation %s but is in %s").
Proof.
  intros H. unfold _call_. apply Nat.eqb_neq in H. now rewrite H.
Qed.

Lemma newton_polygon_mismatch self f :
  parent f <> ring_id (domain self) ->
  newton_polygon self f
  = Raise (ValueError "f must be in the domain of the valuation").
Proof.
  intros H. unfold newton_polygon. apply Nat.eqb_neq in H. now rewrite H.
Qed.

Lemma call_in_domain self f :
  _call_ self (in_domain self f)
  = if is_zero f then Ok Infinity else py_min (valuations self f).
Proof.
  unfold _call_. cbn [in_domain parent coeffs]. now rewrite Nat.eqb_refl.
Qed.

Lemma effective_degree_coerced self x f :
  coerce (domain self) x = Some f ->
  effective_degree self x
  = if is_zero f then
      Raise (ValueError
               "the effective degree is only defined for non-zero polynomials")
    else
      v ← py_min (valuations self f);
      py_last (matching_indices (fun w => value_eqb w v) (valuations self f)).
Proof.
  intros E. unfold effective_degree. rewrite E, call_in_domain.
  now destruct (is_zero f).
Qed.

(** * The claims *)

(** C1 -- Reconstruction identity.  For every polynomial [f] of the domain
    the sequence [(f_0, ..., f_n)] that [coefficients(f)] yields satisfies
    [f = sum_i f_i * phi^i] exactly, whichever path computes it: the first
    part is the method itself (substitution when [phi] is linear, division
    otherwise), the second part is the division loop on its own. *)
Theorem coefficients_reconstruction self fuel f c :
  key_ok self -> cache_ok self c -> in_domain_of self f ->
  (length (coeffs f) <= fuel)%nat ->
  (exists cs c', coefficients self fuel f c = (Ok (Some cs), c')
                 /\ expansion_sum (phi self) cs = coeffs f)
  /\ (exists cs c', __coefficients self fuel (coeffs f) c = (Some cs, c')
                    /\ expansion_sum (phi self) cs = coeffs f).
Proof.
  intros Hkey Hc Hf Hlen. split.
  - destruct (coefficients_run self fuel f c Hkey Hc Hf Hlen)
      as (cs & c' & E & _ & Hsum & _).
    exists cs, c'. split; [assumption|].
    apply expansion_sum_eq; [apply Hf | assumption].
  - destruct (general_path_run self fuel (coeffs f) c Hkey Hc Hlen)
      as (cs & c' & E & _ & _ & Hsum & _).
    exists cs, c'. split; [assumption|].
    apply expansion_sum_eq; [apply Hf | assumption].
Qed.

Lemma coefficients_reconstruction_witness :
  (exists cs c', coefficients Examples.v1 3 (Examples.in_ZZx [3; 2; 1]) ∅
                 = (Ok (Some cs), c')
                 /\ expansion_sum (phi Examples.v1) cs = [3; 2; 1])
  /\ (exists cs c', __coefficients Examples.v1 3 [3; 2; 1] ∅ = (Some cs, c')
                    /\ expansion_sum (phi Examples.v1) cs = [3; 2; 1]).
Proof.
  apply (coefficients_reconstruction Examples.v1 3
           (Examples.in_ZZx [3; 2; 1]) ∅).
  - repeat split.
  - apply cache_ok_empty.
  - split; reflexivity.
  - simpl. lia.
Defined.

(** C2 -- Degree bound.  Every polynomial yielded by [coefficients(f)] has
    degree strictly less than the degree of [phi]. *)
Theorem coefficients_degree_bound self fuel f c :
  key_ok self -> cache_ok self c -> in_domain_of self f ->
  (length (coeffs f) <= fuel)%nat ->
  exists cs c', coefficients self fuel f c = (Ok (Some cs), c')
                /\ Forall (fun p => degree p < degree (phi self)) cs.
Proof.
  intros Hkey Hc Hf Hlen.
  destruct (coefficients_run self fuel f c Hkey Hc Hf Hlen)
    as (cs & c' & E & _ & _ & Hsmall).
  exists cs, c'. split; [assumption|].
  eapply Forall_impl; [exact Hsmall|]. now intros p [_ Hp].
Qed.

Lemma coefficients_degree_bound_witness :
  exists cs c', coefficients Examples.v1 3 (Examples.in_ZZx [3; 2; 1]) ∅
                = (Ok (Some cs), c')
                /\ Forall (fun p => degree p < degree (phi Examples.v1)) cs.
Proof.
  apply (coefficients_degree_bound Examples.v1 3
           (Examples.in_ZZx [3; 2; 1]) ∅).
  - repeat split.
  - apply cache_ok_empty.
  - split; reflexivity.
  - simpl. lia.
Defined.

(** C3 -- Evaluation consistency.  On the zero polynomial of the domain the
    valuation is [infinity]; on a non-zero polynomial of the domain it is
    the minimum of [valuations(f)]: an entry of that sequence which is
    below every entry. *)
Theorem evaluation_consistency self f :
  key_ok self -> evaluator_contract self -> in_domain_of self f ->
  (coeffs f = zero -> _call_ self f = Ok Infinity)
  /\ (coeffs f <> zero ->
      _call_ self f = py_min (valuations self (coeffs f))
      /\ exists m, _call_ self f = Ok m
                   /\ In m (valuations self (coeffs f))
                   /\ Forall (fun w => value_leb m w = true)
                        (valuations self (coeffs f))).
Proof.
  intros Hkey Hev [Hpar Hwf]. unfold _call_.
  rewrite Hpar, Nat.eqb_refl. cbn [negb]. split.
  - now intros ->.
  - unfold zero. intros Hne.
    destruct (coeffs f) as [|a g] eqn:E; [congruence|].
    cbn [is_zero]. split; [reflexivity|].
    apply py_min_spec. now apply valuations_nonempty.
Qed.

Lemma evaluation_consistency_witness :
  (coeffs (Examples.in_ZZx [3; 2; 1]) = zero ->
   _call_ Examples.v0 (Examples.in_ZZx [3; 2; 1]) = Ok Infinity)
  /\ (coeffs (Examples.in_ZZx [3; 2; 1]) <> zero ->
      _call_ Examples.v0 (Examples.in_ZZx [3; 2; 1])
      = py_min (valuations Examples.v0 [3; 2; 1])
      /\ exists m, _call_ Examples.v0 (Examples.in_ZZx [3; 2; 1]) = Ok m
                   /\ In m (valuations Examples.v0 [3; 2; 1])
                   /\ Forall (fun w => value_leb m w = true)
                        (valuations Examples.v0 [3; 2; 1])).
Proof.
  apply (evaluation_consistency Examples.v0 (Examples.in_ZZx [3; 2; 1])).
  - repeat split.
  - apply term_valuations_contract.
  - split; reflexivity.
Defined.

(** C4 -- Effective degree.  [effective_degree] raises its value error
    exactly when the coerced argument is zero; on a non-zero polynomial it
    returns the largest index whose term valuation equals the valuation of
    the polynomial; on a non-zero constant it returns 0. *)
Theorem effective_degree_contract self x f :
  key_ok self -> evaluator_contract self ->
  coerce (domain self) x = Some f -> wf f ->
  (f = zero ->
   effective_degree self x
   = Raise (ValueError
              "the effective degree is only defined for non-zero polynomials"))
  /\ (f <> zero ->
      exists v i,
        _call_ self (in_domain self f) = Ok v
        /\ effective_degree self x = Ok i
        /\ (i < length (valuations self f))%nat
        /\ value_eqb (nth i (valuations self f) Infinity) v = true
        /\ forall j, (i < j < length (valuations self f))%nat ->
             value_eqb (nth j (valuations self f) Infinity) v = false)
  /\ (degree f = 0 -> effective_degree self x = Ok 0%nat).
Proof.
  intros Hkey Hev Hx Hf.
  rewrite (effective_degree_coerced self x f Hx), call_in_domain.
  split; [|split].
  - now intros ->.
  - unfold zero. intros Hne.
    destruct f as [|a g] eqn:E; [congruence|]. cbn [is_zero].
    rewrite <- E in *.
    destruct (py_min_spec (valuations self f)) as (v & Hv & Hin & _).
    { apply valuations_nonempty; [assumption..|]. now rewrite E. }
    rewrite Hv. cbn [mbind result_bind].
    destruct (last_match_spec (fun w => value_eqb w v) (valuations self f))
      as (i & Hi & Hrest).
    { exists v. split; [assumption | apply value_eqb_refl]. }
    exists v, i. now split.
  - intros Hd. unfold degree in Hd.
    destruct f as [|a [|b g]]; try (exfalso; simpl in Hd; lia).
    assert (Ha : a <> 0).
    { intros ->. discriminate Hf. }
    cbn [is_zero].
    pose proof (Hev [a] Hf) as Hlen.
    rewrite (expansion_constant self a Hkey Ha) in Hlen.
    destruct (valuations self [a]) as [|w [|w' l]]; try discriminate.
    cbn [py_min fold_left mbind result_bind].
    unfold matching_indices, enumerate. simpl.
    now rewrite value_eqb_refl.
Qed.

Lemma effective_degree_contract_witness :
  ([4] = zero ->
   effective_degree Examples.v0 (Examples.in_ZZ 4)
   = Raise (ValueError
              "the effective degree is only defined for non-zero polynomials"))
  /\ ([4] <> zero ->
      exists v i,
        _call_ Examples.v0 (in_domain Examples.v0 [4]) = Ok v
        /\ effective_degree Examples.v0 (Examples.in_ZZ 4) = Ok i
        /\ (i < length (valuations Examples.v0 [4%Z]))%nat
        /\ value_eqb (nth i (valuations Examples.v0 [4]) Infinity) v = true
        /\ forall j, (i < j < length (valuations Examples.v0 [4%Z]))%nat ->
             value_eqb (nth j (valuations Examples.v0 [4]) Infinity) v = false)
  /\ (degree [4] = 0 ->
      effective_degree Examples.v0 (Examples.in_ZZ 4) = Ok 0%nat).
Proof.
  apply (effective_degree_contract Examples.v0 (Examples.in_ZZ 4) [4]).
  - repeat split.
  - apply term_valuations_contract.
  - reflexivity.
  - reflexivity.
Defined.

(** C5 -- Termination and the zero case.  The division loop iterates while
    the running polynomial has degree at least 0; it stops after at most
    [deg f + 1] iterations with a finite list, the same for every larger
    fuel; on the zero polynomial the body never runs and the expansion is
    empty. *)
Theorem general_expansion_terminates self f c :
  key_ok self -> cache_ok self c ->
  (exists cs, forall fuel, (length f <= fuel)%nat ->
     exists c', __coefficients self fuel f c = (Some cs, c'))
  /\ (forall fuel, __coefficients self fuel zero c = (Some [], c))
  /\ (forall fuel,
        coefficients self fuel (in_domain self zero) c = (Ok (Some []), c)).
Proof.
  intros Hkey Hc. split; [|split].
  - destruct (general_path_run self (length f) f c Hkey Hc (le_n _))
      as (cs & _ & _ & _ & Hloop & _).
    exists cs. intros fuel Hlen.
    destruct (coefficients_loop_run self fuel f c Hc) as (c' & E & _).
    exists c'. rewrite E. f_equal.
    now apply (division_loop_fuel _ (length f)).
  - intros [|fuel]; reflexivity.
  - intros fuel. unfold coefficients. cbn [in_domain parent coeffs].
    rewrite Nat.eqb_refl. cbn [negb].
    destruct (degree (phi self) =? 1); [reflexivity|].
    destruct fuel; reflexivity.
Qed.

Lemma general_expansion_terminates_witness :
  (exists cs, forall fuel, (length [3; 2; 1] <= fuel)%nat ->
     exists c', __coefficients Examples.v1 fuel [3; 2; 1] ∅ = (Some cs, c'))
  /\ (forall fuel, __coefficients Examples.v1 fuel zero ∅ = (Some [], ∅))
  /\ (forall fuel,
        coefficients Examples.v1 fuel (in_domain Examples.v1 zero) ∅
        = (Ok (Some []), ∅)).
Proof.
  apply (general_expansion_terminates Examples.v1 [3; 2; 1] ∅).
  - repeat split.
  - apply cache_ok_empty.
Defined.

(** C6 -- Linear/general path equivalence.  When [phi] has degree 1,
    [coefficients(f)] is the coefficient list of [f(x - phi[0])], each
    coefficient taken back into the domain; the division loop run on the
    same [f] yields the same list, and the list satisfies the
    reconstruction identity. *)
Theorem linear_path_is_division self fuel f c :
  key_ok self -> cache_ok self c -> in_domain_of self f ->
  degree (phi self) = 1 -> (length (coeffs f) <= fuel)%nat ->
  coefficients self fuel f c
  = (Ok (Some (map constant
                 (coefficients_dense
                    (subst (coeffs f)
                       (sub gen (constant (coef (phi self) 0))))))), c)
  /\ (exists c', __coefficients self fuel (coeffs f) c
                 = (Some (map constant
                            (coefficients_dense
                               (subst (coeffs f)
                                  (sub gen (constant (coef (phi self) 0)))))),
                    c'))
  /\ expansion_sum (phi self)
       (map constant
          (coefficients_dense
             (subst (coeffs f) (sub gen (constant (coef (phi self) 0))))))
     = coeffs f.
Proof.
  intros Hkey Hc [Hpar Hwf] Hd Hlen.
  pose proof (linear_key self Hkey Hd) as Hshape.
  split; [|split].
  - unfold coefficients. rewrite Hpar, Nat.eqb_refl. cbn [negb].
    apply Z.eqb_eq in Hd. now rewrite Hd.
  - destruct (coefficients_loop_run self fuel (coeffs f) c Hc) as (c' & E & _).
    exists c'. rewrite E. f_equal. rewrite Hshape at 1.
    now apply division_loop_linear.
  - apply expansion_sum_eq; [assumption|]. unfold coefficients_dense.
    rewrite Hshape at 1. apply linear_expansion_sum.
Qed.

Lemma linear_path_is_division_witness :
  coefficients Examples.v0 3 (Examples.in_ZZx [3; 2; 1]) ∅
  = (Ok (Some [[3]; [2]; [1]]), ∅)
  /\ (exists c', __coefficients Examples.v0 3 [3; 2; 1] ∅
                 = (Some [[3]; [2]; [1]], c'))
  /\ expansion_sum (phi Examples.v0) [[3]; [2]; [1]] = [3; 2; 1].
Proof.
  apply (linear_path_is_division Examples.v0 3 (Examples.in_ZZx [3; 2; 1]) ∅).
  - repeat split.
  - apply cache_ok_empty.
  - split; reflexivity.
  - reflexivity.
  - simpl. lia.
Defined.

(** C7 -- Construction.  The constructor raises a type error when the
    domain is not a polynomial ring, the unsupported-arity error when the
    ring has more than one generator, a type error when [phi] does not
    coerce into the domain and a value error when the coerced [phi] is
    constant or not monic; when it succeeds the instance stores the coerced
    [phi], which [phi()] returns. *)
Theorem construction_contract vals P phi0 :
  (is_PolynomialRing (parent_domain P) = false ->
   __init__ vals P phi0
   = Raise (TypeError "domain must be a polynomial ring but %r is not"))
  /\ (is_PolynomialRing (parent_domain P) = true ->
      (1 < ngens (parent_domain P))%nat ->
      __init__ vals P phi0
      = Raise (NotImplementedError
                 "domain must be a univariate polynomial ring but %r is not"))
  /\ (is_PolynomialRing (parent_domain P) = true ->
      ngens (parent_domain P) = 1%nat ->
      coerce (parent_domain P) phi0 = None ->
      __init__ vals P phi0 = Raise (TypeError "no canonical coercion"))
  /\ (forall p,
        is_PolynomialRing (parent_domain P) = true ->
        ngens (parent_domain P) = 1%nat ->
        coerce (parent_domain P) phi0 = Some p ->
        is_constant p = true \/ is_monic p = false ->
        __init__ vals P phi0
        = Raise (ValueError
                   "phi must be a monic non-constant polynomial but %r is not"))
  /\ (forall self,
        __init__ vals P phi0 = Ok self ->
        exists p,
          coerce (parent_domain P) phi0 = Some p
          /\ is_constant p = false /\ is_monic p = true
          /\ _phi self = p /\ phi self = _phi self
          /\ domain self = parent_domain P).
Proof.
  unfold __init__. split; [|split; [|split; [|split]]].
  - now intros ->.
  - intros -> H. cbn [negb].
    destruct (Nat.eqb_spec (ngens (parent_domain P)) 1); [lia | reflexivity].
  - intros -> -> ->. reflexivity.
  - intros p -> -> -> [-> | ->]; [reflexivity|]. cbn [negb].
    now rewrite orb_true_r.
  - intros self.
    destruct (is_PolynomialRing (parent_domain P)); [|discriminate].
    destruct (ngens (parent_domain P) =? 1)%nat; [|discriminate].
    destruct (coerce (parent_domain P) phi0) as [p|]; [|discriminate].
    destruct (is_constant p) eqn:Ec; [discriminate|].
    destruct (is_monic p) eqn:Em; [|discriminate].
    intros [= <-]. exists p. repeat split; assumption.
Qed.

(** C8 -- Domain identity.  On an argument whose parent is not the domain
    itself, [coefficients], the valuation call and [newton_polygon] raise a
    value error; nothing is computed (the cache is left as it was),
    whatever the coercion of the domain would make of the argument. *)
Theorem domain_identity_check self fuel f c :
  parent f <> ring_id (domain self) ->
  coefficients self fuel f c
  = (Raise (ValueError "f must be in the domain of the valuation"), c)
  /\ _call_ self f
     = Raise (ValueError
                "f must be in the domain of the valuation %s but is in %s")
  /\ newton_polygon self f
     = Raise (ValueError "f must be in the domain of the valuation").
Proof.
  intros H. split; [|split].
  - now apply coefficients_mismatch.
  - now apply call_mismatch.
  - now apply newton_polygon_mismatch.
Qed.

Lemma domain_identity_check_witness :
  coefficients Examples.v1 3 (Examples.in_ZZ 4) ∅
  = (Raise (ValueError "f must be in the domain of the valuation"), ∅)
  /\ _call_ Examples.v1 (Examples.in_ZZ 4)
     = Raise (ValueError
                "f must be in the domain of the valuation %s but is in %s")
  /\ newton_polygon Examples.v1 (Examples.in_ZZ 4)
     = Raise (ValueError "f must be in the domain of the valuation").
Proof.
  apply (domain_identity_check Examples.v1 3 (Examples.in_ZZ 4) ∅).
  simpl. unfold Examples.ZZ_id, Examples.ZZx_id. lia.
Defined.

(** C9 -- Newton polygon.  On every polynomial of the domain, zero
    included, [newton_polygon(f)] is the lower convex hull of the points
    [(i, valuations(f)[i])]: only the points with a finite value take part
    in it, and for the zero polynomial, whose expansion is empty, the
    polygon is empty. *)
Theorem newton_polygon_lower_hull self f :
  parent f = ring_id (domain self) ->
  newton_polygon self f
  = Ok (NewtonPolygon (enumerate (valuations self (coeffs f))))
  /\ lower_hull_of
       (finite_points (enumerate (valuations self (coeffs f))))
       (NewtonPolygon (enumerate (valuations self (coeffs f))))
  /\ (forall x y,
        In (x, y) (finite_points (enumerate (valuations self (coeffs f))))
        <-> exists i, x = Z.of_nat i
                      /\ nth_error (valuations self (coeffs f)) i
                         = Some (Finite y))
  /\ (evaluator_contract self -> coeffs f = zero ->
      newton_polygon self f = Ok []).
Proof.
  intros Hpar.
  assert (E : newton_polygon self f
              = Ok (NewtonPolygon (enumerate (valuations self (coeffs f))))).
  { unfold newton_polygon. now rewrite Hpar, Nat.eqb_refl. }
  split; [exact E|]. split; [|split].
  - apply NewtonPolygon_lower_hull, finite_points_increasing.
  - intros x y. unfold enumerate. now rewrite finite_points_in.
  - intros Hev Hz. rewrite E, Hz.
    pose proof (Hev zero wf_nil) as Hlen. rewrite expansion_zero in Hlen.
    destruct (valuations self zero); [reflexivity | discriminate].
Qed.

Lemma newton_polygon_lower_hull_witness :
  newton_polygon Examples.v1 (Examples.in_ZZx [3; 2; 1])
  = Ok (NewtonPolygon (enumerate (valuations Examples.v1 [3; 2; 1])))
  /\ lower_hull_of
       (finite_points (enumerate (valuations Examples.v1 [3; 2; 1])))
       (NewtonPolygon (enumerate (valuations Examples.v1 [3; 2; 1])))
  /\ (forall x y,
        In (x, y) (finite_points (enumerate (valuations Examples.v1 [3; 2; 1])))
        <-> exists i, x = Z.of_nat i
                      /\ nth_error (valuations Examples.v1 [3; 2; 1]) i
                         = Some (Finite y))
  /\ (evaluator_contract Examples.v1 ->
      coeffs (Examples.in_ZZx [3; 2; 1]) = zero ->
      newton_polygon Examples.v1 (Examples.in_ZZx [3; 2; 1]) = Ok []).
Proof.
  apply (newton_polygon_lower_hull Examples.v1 (Examples.in_ZZx [3; 2; 1])).
  reflexivity.
Defined.

(** C10 -- [effective_degree] coerces.  On every argument that coerces into
    the domain the result of [effective_degree] is computed from the
    coerced polynomial and is never the domain-mismatch error, which the
    three other operations raise on the same argument when its parent is
    not the domain itself. *)
Theorem effective_degree_coerces self x f :
  coerce (domain self) x = Some f ->
  effective_degree self x
  = (if is_zero f then
       Raise (ValueError
                "the effective degree is only defined for non-zero polynomials")
     else
       v ← py_min (valuations self f);
       py_last (matching_indices (fun w => value_eqb w v) (valuations self f)))
  /\ effective_degree self x
     <> Raise (ValueError "f must be in the domain of the valuation")
  /\ effective_degree self x
     <> Raise (ValueError
                 "f must be in the domain of the valuation %s but is in %s")
  /\ (parent x <> ring_id (domain self) ->
      (forall fuel c,
         coefficients self fuel x c
         = (Raise (ValueError "f must be in the domain of the valuation"), c))
      /\ _call_ self x
         = Raise (ValueError
                    "f must be in the domain of the valuation %s but is in %s")
      /\ newton_polygon self x
         = Raise (ValueError "f must be in the domain of the valuation")).
Proof.
  intros Hx. rewrite (effective_degree_coerced self x f Hx).
  split; [reflexivity|]. split; [|split].
  - destruct (is_zero f); [discriminate|].
    destruct (valuations self f) as [|w l]; [discriminate|].
    cbn [py_min mbind result_bind]. unfold py_last.
    now destruct (List.rev _).
  - destruct (is_zero f); [discriminate|].
    destruct (valuations self f) as [|w l]; [discriminate|].
    cbn [py_min mbind result_bind]. unfold py_last.
    now destruct (List.rev _).
  - intros H. split; [|split].
    + intros fuel c. now apply coefficients_mismatch.
    + now apply call_mismatch.
    + now apply newton_polygon_mismatch.
Qed.

Lemma effective_degree_coerces_witness :
  effective_degree Examples.v0 (Examples.in_ZZ 4) = Ok 0%nat
  /\ effective_degree Examples.v0 (Examples.in_ZZ 4)
     <> Raise (ValueError "f must be in the domain of the valuation")
  /\ effective_degree Examples.v0 (Examples.in_ZZ 4)
     <> Raise (ValueError
                 "f must be in the domain of the valuation %s but is in %s")
  /\ (parent (Examples.in_ZZ 4) <> ring_id (domain Examples.v0) ->
      (forall fuel c,
         coefficients Examples.v0 fuel (Examples.in_ZZ 4) c
         = (Raise (ValueError "f must be in the domain of the valuation"), c))
      /\ _call_ Examples.v0 (Examples.in_ZZ 4)
         = Raise (ValueError
                    "f must be in the domain of the valuation %s but is in %s")
      /\ newton_polygon Examples.v0 (Examples.in_ZZ 4)
         = Raise (ValueError "f must be in the domain of the valuation")).
Proof.
  apply (effective_degree_coerces Examples.v0 (Examples.in_ZZ 4) [4]).
  reflexivity.
Defined.

(** * Further properties of the class *)

(** ** The cache of [__quo_rem_monomial] *)

(** The divisions of all monomials of degree below [n] are in the cache. *)
Definition cached_upto (n : nat) (c : gmap nat (poly * poly)) : Prop :=
  forall d, (d < n)%nat -> is_Some (c !! d).

Lemma quo_rem_monomial_grows self d c :
  exists qr c1,
    __quo_rem_monomial self d c = (qr, c1)
    /\ c ⊆ c1 /\ c1 !! d = Some qr
    /\ (is_Some (c !! d) -> c1 = c).
Proof.
  unfold __quo_rem_monomial. destruct (c !! d) as [qr|] eqn:E.
  - exists qr, c. repeat split; auto.
  - eexists _, _. split; [reflexivity|]. split; [|split].
    + now apply insert_subseteq.
    + apply lookup_insert_eq.
    + intros [v Hv]. discriminate.
Qed.

Lemma mapM_quo_rem_monomial_grows self l c :
  exists qrs c1,
    mapM (__quo_rem_monomial self) l c = (qrs, c1)
    /\ c ⊆ c1
    /\ (forall d, In d l -> is_Some (c1 !! d))
    /\ ((forall d, In d l -> is_Some (c !! d)) -> c1 = c).
Proof.
  revert c. induction l as [|d l IH]; intros c.
  - exists [], c. repeat split; auto. intros d [].
  - destruct (quo_rem_monomial_grows self d c) as (qr & c1 & E1 & Hs1 & Hd & Hhit).
    destruct (IH c1) as (qrs & c2 & E2 & Hs2 & Hl & Hhits).
    exists (qr :: qrs), c2. cbn [mapM].
    rewrite (run_bind _ _ _ _ _ E1), (run_bind _ _ _ _ _ E2).
    split; [reflexivity|]. split; [by etrans|]. split.
    + intros d' [<-|Hin]; [|now apply Hl].
      exists qr. now apply (lookup_weaken c1).
    + intros Hall. assert (c1 = c) as -> by (apply Hhit, Hall; now left).
      apply Hhits. intros d' Hin. apply Hall. now right.
Qed.

Lemma quo_rem_grows self f c :
  exists qr c1,
    __quo_rem self f c = (qr, c1)
    /\ c ⊆ c1
    /\ cached_upto (length f) c1
    /\ (cached_upto (length f) c -> c1 = c).
Proof.
  unfold __quo_rem. rewrite degree_succ_length.
  destruct (mapM_quo_rem_monomial_grows self (seq 0 (length f)) c)
    as (qrs & c1 & E & Hs & Hl & Hhit).
  eexists _, c1. rewrite (run_bind _ _ _ _ _ E).
  split; [reflexivity|]. split; [assumption|]. split.
  - intros d Hd. apply Hl, in_seq. lia.
  - intros Hall. apply Hhit. intros d Hd%in_seq. apply Hall. lia.
Qed.

Lemma cached_upto_weaken n n' c c' :
  cached_upto n c -> (n' <= n)%nat -> c ⊆ c' -> cached_upto n' c'.
Proof.
  intros H Hn Hs d Hd. destruct (H d) as [v Hv]; [lia|].
  exists v. now apply (lookup_weaken c).
Qed.

Lemma coefficients_loop_grows self fuel f c :
  key_ok self -> cache_ok self c -> (length f <= fuel)%nat ->
  exists c1,
    __coefficients self fuel f c = (division_loop (phi self) fuel f, c1)
    /\ c ⊆ c1 /\ cache_ok self c1
    /\ cached_upto (length f) c1
    /\ (cached_upto (length f) c -> c1 = c).
Proof.
  intros Hkey. destruct (key_ok_monic self Hkey) as (m & Hm & H1m & _).
  revert f c. induction fuel as [|fuel IH]; intros f c Hc Hlen;
    cbn [__coefficients division_loop]; rewrite degree_nonneg;
    destruct f as [|a f]; cbn [is_zero negb];
    try (exists c; repeat split; auto; intros d Hd; simpl in Hd; lia);
    try (simpl in Hlen; lia).
  destruct (quo_rem_grows self (a :: f) c) as (qr & c1 & E1 & Hs1 & Hup1 & Hhit1).
  destruct (quo_rem_run self (a :: f) c Hc) as (c1' & E1' & Hc1).
  rewrite E1 in E1'. injection E1' as -> <-.
  destruct (quo_rem_by_monomials (phi self) (a :: f)) as [q r] eqn:Eq.
  destruct (quo_rem_by_monomials_spec _ m _ q r Hm Eq) as (_ & Hq & _ & _ & H3).
  assert (Hlq : (length q <= length f)%nat).
  { assert (length q <= length (a :: f) - m)%nat.
    { apply wf_length_le; [assumption|]. intros i Hi. apply H3. lia. }
    simpl in *. lia. }
  destruct (IH q c1 Hc1) as (c2 & E2 & Hs2 & Hc2 & Hup2 & Hhit2);
    [simpl in Hlen; lia|].
  exists c2. rewrite (run_bind _ _ _ _ _ E1), (run_bind _ _ _ _ _ E2).
  split; [reflexivity|]. split; [by etrans|]. split; [assumption|]. split.
  - apply (cached_upto_weaken _ _ c1 c2 Hup1); [lia | assumption].
  - intros Hall. assert (c1 = c) as -> by now apply Hhit1.
    apply Hhit2. apply (cached_upto_weaken _ _ c c Hall); [simpl; lia | done].
Qed.

(** X1 -- [__quo_rem(f)] is the division of [f] by [phi]: whatever the
    monomials already in the cache, it returns the pair [f.quo_rem(phi)],
    that is the [q] and [r] with [f = q*phi + r] and [deg r < deg phi]. *)
Theorem quo_rem_is_division self f c :
  key_ok self -> cache_ok self c -> wf f ->
  exists q r c1,
    __quo_rem self f c = ((q, r), c1)
    /\ quo_rem f (phi self) = (q, r)
    /\ add (mul q (phi self)) r = f
    /\ degree r < degree (phi self)
    /\ cache_ok self c1.
Proof.
  intros Hkey Hc Hf.
  destruct (key_ok_monic self Hkey) as (m & Hm & _ & Hdeg).
  destruct (quo_rem_run self f c Hc) as (c1 & E & Hc1).
  destruct (quo_rem_by_monomials (phi self) f) as [q r] eqn:Eq.
  destruct (quo_rem_by_monomials_spec _ m f q r Hm Eq) as (H1 & Hq & Hr & H2 & _).
  exists q, r, c1. split; [assumption|]. split; [|split; [|split]].
  - now rewrite <- (quo_rem_by_monomials_quo_rem _ m f Hm).
  - apply wf_peq_eq; [apply wf_add | assumption|].
    now rewrite add_peq, mul_peq.
  - apply (degree_lt_length _ _ m Hdeg). now apply wf_length_le.
  - assumption.
Qed.

Lemma quo_rem_is_division_witness :
  exists q r c1,
    __quo_rem Examples.v1 [3; 2; 1] ∅ = ((q, r), c1)
    /\ quo_rem [3; 2; 1] (phi Examples.v1) = (q, r)
    /\ add (mul q (phi Examples.v1)) r = [3; 2; 1]
    /\ degree r < degree (phi Examples.v1)
    /\ cache_ok Examples.v1 c1.
Proof.
  apply (quo_rem_is_division Examples.v1 [3; 2; 1] ∅).
  - repeat split.
  - apply cache_ok_empty.
  - reflexivity.
Defined.


(** X3 -- Repeatability of [coefficients].  The sequence does not depend on
    what the cache holds; the call only adds entries to the cache; called
    again on the same polynomial it yields the same sequence and adds
    nothing; after the division path every monomial up to the degree of
    [f] is cached. *)
Theorem coefficients_repeatable self fuel f c :
  key_ok self -> cache_ok self c -> in_domain_of self f ->
  (length (coeffs f) <= fuel)%nat ->
  exists cs c1,
    coefficients self fuel f c = (Ok (Some cs), c1)
    /\ c ⊆ c1 /\ cache_ok self c1
    /\ coefficients self fuel f c1 = (Ok (Some cs), c1)
    /\ (forall c0, cache_ok self c0 ->
          fst (coefficients self fuel f c0) = Ok (Some cs))
    /\ (degree (phi self) <> 1 -> cached_upto (length (coeffs f)) c1).
Proof.
  intros Hkey Hc Hf Hlen.
  assert (Hind : forall c0, cache_ok self c0 ->
            fst (coefficients self fuel f c0)
            = Ok (Some (expansion (phi self) (coeffs f)))).
  { intros c0 Hc0.
    destruct (coefficients_expansion self fuel f c0 Hkey Hc0 Hf Hlen)
      as (c' & E & _). now rewrite E. }
  destruct Hf as [Hpar Hwf].
  exists (expansion (phi self) (coeffs f)).
  unfold coefficients in *. rewrite Hpar, Nat.eqb_refl in *. cbn [negb] in *.
  destruct (Z.eqb_spec (degree (phi self)) 1) as [Hd|Hd].
  - assert (Hexp : expansion (phi self) (coeffs f)
                   = map constant
                       (coefficients_dense
                          (subst (coeffs f)
                             (sub gen (constant (coef (phi self) 0)))))).
    { unfold expansion. now rewrite (proj2 (Z.eqb_eq _ _) Hd). }
    rewrite Hexp. exists c. repeat split; auto.
    contradiction.
  - destruct (coefficients_loop_grows self fuel (coeffs f) c Hkey Hc Hlen)
      as (c1 & E1 & Hs1 & Hc1 & Hup1 & _).
    destruct (coefficients_loop_grows self fuel (coeffs f) c1 Hkey Hc1 Hlen)
      as (c2 & E2 & _ & _ & _ & Hhit).
    assert (c2 = c1) as -> by now apply Hhit.
    pose proof (Hind c Hc) as Hfst. rewrite (run_bind _ _ _ _ _ E1) in Hfst.
    cbn [mret state_ret fst] in Hfst.
    exists c1. rewrite (run_bind _ _ _ _ _ E1), (run_bind _ _ _ _ _ E2).
    cbn [mret state_ret]. rewrite Hfst. repeat split; auto.
Qed.

Lemma coefficients_repeatable_witness :
  exists cs c1,
    coefficients Examples.v1 3 (Examples.in_ZZx [3; 2; 1]) ∅
    = (Ok (Some cs), c1)
    /\ ∅ ⊆ c1 /\ cache_ok Examples.v1 c1
    /\ coefficients Examples.v1 3 (Examples.in_ZZx [3; 2; 1]) c1
       = (Ok (Some cs), c1)
    /\ (forall c0, cache_ok Examples.v1 c0 ->
          fst (coefficients Examples.v1 3 (Examples.in_ZZx [3; 2; 1]) c0)
          = Ok (Some cs))
    /\ (degree (phi Examples.v1) <> 1 ->
        cached_upto (length (coeffs (Examples.in_ZZx [3; 2; 1]))) c1).
Proof.
  apply (coefficients_repeatable Examples.v1 3 (Examples.in_ZZx [3; 2; 1]) ∅).
  - repeat split.
  - apply cache_ok_empty.
  - split; reflexivity.
  - simpl. lia.
Defined.

(** ** Expansions are unique *)

(** A list of coefficients in base [key] as [coefficients] yields them:
    every coefficient of degree below that of [key], the last one not
    zero. *)
Definition canonical (key : poly) (cs : list poly) : Prop :=
  Forall (fun c => wf c /\ degree c < degree key) cs /\ last cs <> Some [].

Lemma canonical_tail key c cs : canonical key (c :: cs) -> canonical key cs.
Proof.
  intros [Hall Hlast]. apply Forall_cons in Hall as [_ Hall].
  split; [assumption|]. destruct cs; [discriminate | exact Hlast].
Qed.

Lemma small_coef key m c :
  monic_of_degree key m -> degree c < degree key ->
  forall i, (m <= i)%nat -> coef c i = 0.
Proof.
  intros [Hlen _] Hd i Hi. apply coef_overflow.
  unfold degree in Hd. lia.
Qed.

Section UniqueExpansion.
Variables (key : poly) (m : nat).
Hypothesis key_monic : monic_of_degree key m.

Lemma hsum_cons_division c cs q r :
  degree c < degree key ->
  hsum key (c :: cs) ≈ padd (pmul q key) r ->
  (forall i, (m <= i)%nat -> coef r i = 0) ->
  hsum key cs ≈ q /\ c ≈ r.
Proof using key_monic.
  intros Hc E Hr. apply (division_unique key m); auto.
  - rewrite <- E. cbn [hsum fold_right]. fold (hsum key cs). ring.
  - now apply (small_coef key m).
Qed.

Lemma canonical_nonzero cs : canonical key cs -> hsum key cs ≈ [] -> cs = [].
Proof using key_monic.
  induction cs as [|c cs IH]; intros Hcan Hz; [reflexivity|]. exfalso.
  pose proof Hcan as [Hall Hlast]. apply Forall_cons in Hall as [[Hwf Hc] _].
  destruct (hsum_cons_division c cs [] [] Hc) as [Hq Hr].
  - rewrite Hz. by_coef. reflexivity.
  - intros i _. apply coef_nil.
  - assert (c = []) as -> by (apply wf_peq_eq; auto using wf_nil).
    rewrite (IH (canonical_tail _ _ _ Hcan) Hq) in Hlast. now apply Hlast.
Qed.

Lemma division_loop_nil fuel f : division_loop key fuel f = Some [] -> f = [].
Proof using Type.
  destruct f as [|a f]; [reflexivity|].
  destruct fuel; cbn [division_loop]; rewrite degree_nonneg; cbn [is_zero negb];
    [discriminate|].
  destruct (quo_rem_by_monomials key (a :: f)) as [q r].
  now destruct (division_loop key fuel q).
Qed.

Lemma division_loop_last fuel f cs :
  wf f -> division_loop key fuel f = Some cs -> last cs <> Some [].
Proof using key_monic.
  revert f cs. induction fuel as [|fuel IH]; intros f cs Hf;
    cbn [division_loop]; rewrite degree_nonneg; destruct f as [|a f];
    cbn [is_zero negb]; try discriminate; try (now intros [= <-]).
  destruct (quo_rem_by_monomials key (a :: f)) as [q r] eqn:E.
  destruct (quo_rem_by_monomials_spec key m _ q r key_monic E)
    as (H1 & Hq & Hr & _).
  destruct (division_loop key fuel q) as [cs'|] eqn:E'; [|discriminate].
  intros [= <-]. destruct cs' as [|c' cs'].
  - apply division_loop_nil in E'. subst q. intros [= ->].
    assert (Hz : a :: f ≈ []) by (rewrite H1; by_coef; reflexivity).
    apply norm_zero in Hz. unfold wf in Hf. congruence.
  - change (last (r :: c' :: cs')) with (last (c' :: cs')). now apply (IH q).
Qed.

Lemma quotient_length f q r :
  wf f -> quo_rem_by_monomials key f = (q, r) ->
  length q = (length f - m)%nat.
Proof using key_monic.
  intros Hf E.
  destruct (quo_rem_by_monomials_spec key m _ q r key_monic E)
    as (H1 & Hq & _ & H2 & H3).
  assert (Hle : (length q <= length f - m)%nat).
  { apply wf_length_le; [assumption|]. intros i Hi. apply H3. lia. }
  destruct (le_lt_dec (length f) m) as [Hsmall|Hbig]; [lia|].
  set (k := (length f - 1 - m)%nat).
  assert (Hk : coef q k <> 0).
  { rewrite <- (coef_pmul_top key m key_monic q k).
    - assert (Hf0 : coef f (k + m) <> 0).
      { replace (k + m)%nat with (length f - 1)%nat by (subst k; lia).
        apply wf_lead_nonzero; [assumption|]. intros ->. simpl in Hbig. lia. }
      rewrite (peq_coef _ _ H1), coef_padd, (H2 (k + m)%nat) in Hf0 by lia.
      now rewrite Z.add_0_r in Hf0.
    - intros i Hi. apply H3. subst k. lia. }
  destruct (le_lt_dec (length q) k) as [Hov|Hgt]; [|subst k; lia].
  now rewrite coef_overflow in Hk.
Qed.

Hypothesis key_not_constant : (1 <= m)%nat.

Lemma division_loop_unique cs :
  canonical key cs ->
  forall fuel f, wf f -> hsum key cs ≈ f -> (length f <= fuel)%nat ->
                 division_loop key fuel f = Some cs.
Proof using key_monic key_not_constant.
  induction cs as [|c cs IH]; intros Hcan fuel f Hf Hsum Hlen.
  - assert (f = []) as -> by (apply wf_peq_eq; auto using wf_nil;
                               now symmetry).
    now destruct fuel.
  - destruct f as [|a f].
    { apply (canonical_nonzero _ Hcan) in Hsum. discriminate. }
    destruct fuel as [|fuel]; [simpl in Hlen; lia|].
    cbn [division_loop]. rewrite degree_nonneg. cbn [is_zero negb].
    destruct (quo_rem_by_monomials key (a :: f)) as [q r] eqn:E.
    destruct (quo_rem_by_monomials_spec key m _ q r key_monic E)
      as (H1 & Hq & Hr & H2 & _).
    pose proof Hcan as [Hall _]. apply Forall_cons in Hall as [[Hwf Hc] _].
    destruct (hsum_cons_division c cs q r Hc) as [Hq' Hr'];
      [now rewrite Hsum | assumption|].
    assert (r = c) as -> by (apply wf_peq_eq; auto; now symmetry).
    rewrite (IH (canonical_tail _ _ _ Hcan) fuel q Hq Hq'); [reflexivity|].
    rewrite (quotient_length _ q c Hf E). simpl in *. lia.
Qed.

Lemma division_loop_length fuel f cs :
  wf f -> division_loop key fuel f = Some cs ->
  length cs = match length f with
              | O => O
              | S n => S (n / m)
              end.
Proof using key_monic key_not_constant.
  revert f cs. induction fuel as [|fuel IH]; intros f cs Hf;
    cbn [division_loop]; rewrite degree_nonneg; destruct f as [|a f];
    cbn [is_zero negb]; try discriminate; try (now intros [= <-]).
  destruct (quo_rem_by_monomials key (a :: f)) as [q r] eqn:E.
  destruct (quo_rem_by_monomials_spec key m _ q r key_monic E)
    as (_ & Hq & _).
  pose proof (quotient_length _ q r Hf E) as Hlq.
  destruct (division_loop key fuel q) as [cs'|] eqn:E'; [|discriminate].
  intros [= <-]. cbn [length]. f_equal. rewrite (IH q cs' Hq E'), Hlq.
  cbn [length]. destruct (le_lt_dec (S (length f)) m) as [Hsmall|Hbig].
  - replace (S (length f) - m)%nat with O by lia.
    symmetry. apply Nat.div_small. lia.
  - destruct (S (length f) - m)%nat as [|n] eqn:En; [lia|].
    replace (length f) with (n + 1 * m)%nat by lia.
    rewrite Nat.div_add by lia. lia.
Qed.
End UniqueExpansion.

Lemma expansion_loop self f :
  key_ok self -> wf f ->
  division_loop (phi self) (length f) f = Some (expansion (phi self) f).
Proof.
  intros Hkey Hf. unfold expansion.
  destruct (Z.eqb_spec (degree (phi self)) 1) as [Hd|Hd].
  - pose proof (linear_key self Hkey Hd) as Hshape.
    unfold coefficients_dense. rewrite Hshape at 1.
    now apply division_loop_linear.
  - destruct (general_path_run self (length f) f ∅ Hkey (cache_ok_empty self)
                (le_n _)) as (cs & _ & _ & _ & Hloop & _).
    now rewrite Hloop.
Qed.

Lemma expansion_canonical self f :
  key_ok self -> wf f -> canonical (phi self) (expansion (phi self) f).
Proof.
  intros Hkey Hf. destruct (key_ok_monic self Hkey) as (m & Hm & _ & Hdeg).
  pose proof (expansion_loop self f Hkey Hf) as Hloop. split.
  - eapply Forall_impl; [apply (division_loop_small _ m Hm _ _ _ Hloop)|].
    intros p [Hp Hl]. split; [assumption|]. now apply (degree_lt_length _ _ m).
  - now apply (division_loop_last _ m Hm _ _ _ Hf Hloop).
Qed.

Lemma expansion_unique self f cs :
  key_ok self -> wf f -> canonical (phi self) cs ->
  hsum (phi self) cs ≈ f -> expansion (phi self) f = cs.
Proof.
  intros Hkey Hf Hcan Hsum.
  destruct (key_ok_monic self Hkey) as (m & Hm & H1m & _).
  pose proof (expansion_loop self f Hkey Hf) as Hloop.
  rewrite (division_loop_unique _ m Hm H1m cs Hcan _ f Hf Hsum (le_n _))
    in Hloop.
  now injection Hloop.
Qed.

Lemma expansion_length self f :
  key_ok self -> wf f ->
  Z.of_nat (length (expansion (phi self) f))
  = degree f / degree (phi self) + 1.
Proof.
  intros Hkey Hf. destruct (key_ok_monic self Hkey) as (m & Hm & H1m & Hdeg).
  rewrite (division_loop_length _ m Hm H1m _ _ _ Hf
             (expansion_loop self f Hkey Hf)).
  rewrite Hdeg. unfold degree. destruct (length f) as [|n].
  - change (Z.of_nat 0 - 1) with (-1).
    replace (-1 / Z.of_nat m) with (-1); [reflexivity|].
    apply (Z.div_unique _ _ _ (Z.of_nat m - 1)); lia.
  - rewrite !Nat2Z.inj_succ, Nat2Z.inj_div.
    replace (Z.succ (Z.of_nat n) - 1) with (Z.of_nat n) by lia. lia.
Qed.

(** X4 -- Round trip.  [coefficients] is the inverse of the sum: applied to
    [sum_i c_i*phi^i], where every [c_i] has degree below that of [phi] and
    the last one is not zero, it yields exactly the list of the [c_i]; the
    phi-adic expansion of a polynomial is unique. *)
Theorem coefficients_of_expansion_sum self fuel cs c :
  key_ok self -> cache_ok self c -> canonical (phi self) cs ->
  (length (expansion_sum (phi self) cs) <= fuel)%nat ->
  exists c',
    coefficients self fuel (in_domain self (expansion_sum (phi self) cs)) c
    = (Ok (Some cs), c').
Proof.
  intros Hkey Hc Hcan Hlen.
  destruct (coefficients_expansion self fuel
              (in_domain self (expansion_sum (phi self) cs)) c Hkey Hc)
    as (c' & E & _); [split; [reflexivity | apply wf_expansion_sum] | exact Hlen|].
  exists c'. rewrite E. cbn [in_domain coeffs].
  rewrite (expansion_unique self _ cs Hkey (wf_expansion_sum _ _) Hcan);
    [reflexivity|].
  symmetry. apply expansion_sum_hsum.
Qed.

Lemma coefficients_of_expansion_sum_witness :
  exists c',
    coefficients Examples.v1 3
      (in_domain Examples.v1 (expansion_sum (phi Examples.v1) [[2; 1]; [1]])) ∅
    = (Ok (Some [[2; 1]; [1]]), c').
Proof.
  apply (coefficients_of_expansion_sum Examples.v1 3 [[2; 1]; [1]] ∅).
  - repeat split.
  - apply cache_ok_empty.
  - split; [|discriminate]. repeat constructor.
  - vm_compute. lia.
Defined.

(** X5 -- No trailing zero.  The last coefficient that [coefficients(f)]
    yields is never the zero polynomial, and the sequence is empty exactly
    when [f] is zero. *)
Theorem coefficients_last_nonzero self fuel f c :
  key_ok self -> cache_ok self c -> in_domain_of self f ->
  (length (coeffs f) <= fuel)%nat ->
  exists cs c',
    coefficients self fuel f c = (Ok (Some cs), c')
    /\ last cs <> Some zero
    /\ (cs = [] <-> coeffs f = zero).
Proof.
  intros Hkey Hc Hf Hlen.
  destruct (coefficients_expansion self fuel f c Hkey Hc Hf Hlen)
    as (c' & E & _).
  destruct Hf as [_ Hwf].
  exists (expansion (phi self) (coeffs f)), c'. split; [assumption|]. split.
  - apply (expansion_canonical self _ Hkey Hwf).
  - split.
    + intros Hnil. destruct (coeffs f) as [|a g] eqn:Ef; [reflexivity|].
      exfalso. now apply (expansion_nonempty self (a :: g) Hkey Hwf).
    + intros ->. apply expansion_zero.
Qed.

Lemma coefficients_last_nonzero_witness :
  exists cs c',
    coefficients Examples.v1 3 (Examples.in_ZZx [3; 2; 1]) ∅
    = (Ok (Some cs), c')
    /\ last cs <> Some zero
    /\ (cs = [] <-> coeffs (Examples.in_ZZx [3; 2; 1]) = zero).
Proof.
  apply (coefficients_last_nonzero Examples.v1 3 (Examples.in_ZZx [3; 2; 1]) ∅).
  - repeat split.
  - apply cache_ok_empty.
  - split; reflexivity.
  - simpl. lia.
Defined.

(** X6 -- Length of the expansion.  [coefficients(f)] yields
    [deg f // deg phi + 1] coefficients (floor division; none for the zero
    polynomial, of degree -1). *)
Theorem coefficients_length self fuel f c :
  key_ok self -> cache_ok self c -> in_domain_of self f ->
  (length (coeffs f) <= fuel)%nat ->
  exists cs c',
    coefficients self fuel f c = (Ok (Some cs), c')
    /\ Z.of_nat (length cs) = degree (coeffs f) / degree (phi self) + 1.
Proof.
  intros Hkey Hc Hf Hlen.
  destruct (coefficients_expansion self fuel f c Hkey Hc Hf Hlen)
    as (c' & E & _).
  exists (expansion (phi self) (coeffs f)), c'. split; [assumption|].
  apply expansion_length; [assumption | apply Hf].
Qed.

Lemma coefficients_length_witness :
  exists cs c',
    coefficients Examples.v1 6 (Examples.in_ZZx [3; 2; 1; 0; 0; 7]) ∅
    = (Ok (Some cs), c')
    /\ Z.of_nat (length cs)
       = degree (coeffs (Examples.in_ZZx [3; 2; 1; 0; 0; 7]))
         / degree (phi Examples.v1) + 1.
Proof.
  apply (coefficients_length Examples.v1 6
           (Examples.in_ZZx [3; 2; 1; 0; 0; 7]) ∅).
  - repeat split.
  - apply cache_ok_empty.
  - split; reflexivity.
  - simpl. lia.
Defined.

(** X7 -- Polynomials below [phi].  A non-zero polynomial of degree less
    than the degree of [phi] is its own expansion: [coefficients(f)] yields
    [f] and nothing else. *)
Theorem coefficients_small self fuel f c :
  key_ok self -> cache_ok self c -> in_domain_of self f ->
  (length (coeffs f) <= fuel)%nat ->
  coeffs f <> zero -> degree (coeffs f) < degree (phi self) ->
  exists c', coefficients self fuel f c = (Ok (Some [coeffs f]), c').
Proof.
  intros Hkey Hc Hf Hlen Hne Hd.
  destruct (coefficients_expansion self fuel f c Hkey Hc Hf Hlen)
    as (c' & E & _).
  exists c'. rewrite E. destruct Hf as [_ Hwf].
  rewrite (expansion_unique self _ [coeffs f] Hkey Hwf); [reflexivity| |].
  - split; [now repeat constructor|]. intros [= H]. now apply Hne.
  - cbn [hsum fold_right]. rewrite pmul_nil_r. apply padd_0_r.
Qed.

Lemma coefficients_small_witness :
  exists c',
    coefficients Examples.v1 2 (Examples.in_ZZx [5; 4]) ∅
    = (Ok (Some [coeffs (Examples.in_ZZx [5; 4])]), c').
Proof.
  apply (coefficients_small Examples.v1 2 (Examples.in_ZZx [5; 4]) ∅).
  - repeat split.
  - apply cache_ok_empty.
  - split; reflexivity.
  - simpl. lia.
  - discriminate.
  - reflexivity.
Defined.

(** X8 -- Multiplication by [phi] shifts the expansion: for a non-zero [f],
    [coefficients(f*phi)] yields the zero polynomial followed by what
    [coefficients(f)] yields. *)
Theorem coefficients_times_phi self fuel f c :
  key_ok self -> cache_ok self c -> in_domain_of self f ->
  (length (coeffs f) <= fuel)%nat ->
  (length (mul (coeffs f) (phi self)) <= fuel)%nat ->
  coeffs f <> zero ->
  exists cs c1 c2,
    coefficients self fuel f c = (Ok (Some cs), c1)
    /\ coefficients self fuel (in_domain self (mul (coeffs f) (phi self))) c
       = (Ok (Some (zero :: cs)), c2).
Proof.
  intros Hkey Hc Hf Hlen Hlen' Hne.
  destruct (coefficients_expansion self fuel f c Hkey Hc Hf Hlen)
    as (c1 & E1 & _).
  destruct (coefficients_expansion self fuel
              (in_domain self (mul (coeffs f) (phi self))) c Hkey Hc)
    as (c2 & E2 & _); [split; [reflexivity | apply wf_mul] | exact Hlen'|].
  exists (expansion (phi self) (coeffs f)), c1, c2. split; [assumption|].
  rewrite E2. cbn [in_domain coeffs]. destruct Hf as [_ Hwf].
  rewrite (expansion_unique self _ (zero :: expansion (phi self) (coeffs f))
             Hkey (wf_mul _ _)); [reflexivity| |].
  - destruct (expansion_canonical self _ Hkey Hwf) as [Hall Hlast].
    destruct (key_ok_monic self Hkey) as (m & _ & H1m & Hdeg).
    split.
    + constructor; [|assumption]. split; [apply wf_nil|].
      rewrite Hdeg. unfold degree, zero. simpl. lia.
    + destruct (expansion (phi self) (coeffs f)) as [|c0 cs] eqn:Ee.
      * exfalso. now apply (expansion_nonempty self (coeffs f) Hkey Hwf).
      * exact Hlast.
  - unfold zero. cbn [hsum fold_right].
    fold (hsum (phi self) (expansion (phi self) (coeffs f))).
    rewrite (expansion_sum_of self _ Hkey Hwf), mul_peq. ring.
Qed.

Lemma coefficients_times_phi_witness :
  exists cs c1 c2,
    coefficients Examples.v1 5 (Examples.in_ZZx [3; 2; 1]) ∅
    = (Ok (Some cs), c1)
    /\ coefficients Examples.v1 5
         (in_domain Examples.v1
            (mul (coeffs (Examples.in_ZZx [3; 2; 1])) (phi Examples.v1))) ∅
       = (Ok (Some (zero :: cs)), c2).
Proof.
  apply (coefficients_times_phi Examples.v1 5 (Examples.in_ZZx [3; 2; 1]) ∅).
  - repeat split.
  - apply cache_ok_empty.
  - split; reflexivity.
  - simpl. lia.
  - vm_compute. lia.
  - discriminate.
Defined.

(** ** The other methods *)

Lemma is_monic_nonzero p : is_monic p = true -> p <> [].
Proof. now intros H ->. Qed.

Lemma call_of_domain self G :
  parent G = ring_id (domain self) -> __call__ self G = _call_ self G.
Proof. intros H. unfold __call__. now rewrite H, Nat.eqb_refl. Qed.

(** X9 -- [_make_monic_integral].  A polynomial that is not monic is
    refused without being evaluated, wherever it lives; whatever the method
    returns is its argument, unchanged; and a monic polynomial of the domain
    is returned exactly when all its term valuations are non-negative, the
    method raising [NotImplementedError] otherwise. *)
Theorem make_monic_integral_contract self G :
  key_ok self -> evaluator_contract self ->
  (is_monic (coeffs G) = false ->
   _make_monic_integral self G
   = Raise (NotImplementedError
              "The polynomial %r is not monic integral and %r does not provide the means to rewrite it to a monic integral polynomial."))
  /\ (forall G', _make_monic_integral self G = Ok G' -> G' = G)
  /\ (in_domain_of self G -> is_monic (coeffs G) = true ->
      (_make_monic_integral self G = Ok G
       <-> Forall (fun w => value_leb (Finite 0) w = true)
             (valuations self (coeffs G)))
      /\ (_make_monic_integral self G = Ok G
          \/ _make_monic_integral self G
             = Raise (NotImplementedError
                        "The polynomial %r is not monic integral and %r does not provide the means to rewrite it to a monic integral polynomial."))).
Proof.
  intros Hkey Hev. unfold _make_monic_integral. split; [|split].
  - now intros ->.
  - intros G'. destruct (is_monic (coeffs G)); [|discriminate].
    destruct (__call__ self G) as [v|e]; cbn [mbind result_bind];
      [|discriminate].
    destruct (value_leb (Finite 0) v); [|discriminate]. now intros [= <-].
  - intros [Hpar Hwf] Hm. rewrite Hm, (call_of_domain self G Hpar).
    pose proof (is_monic_nonzero _ Hm) as Hne.
    unfold _call_. rewrite Hpar, Nat.eqb_refl. cbn [negb].
    destruct (coeffs G) as [|a g] eqn:EG; [congruence|]. cbn [is_zero].
    destruct (py_min_spec (valuations self (a :: g))) as (v & Hv & Hin & Hall).
    { now apply valuations_nonempty. }
    rewrite Hv. cbn [mbind result_bind].
    destruct (value_leb (Finite 0) v) eqn:E0; split; auto.
    + split; [intros _ | reflexivity].
      eapply Forall_impl; [exact Hall|]. intros w Hw.
      now apply (value_leb_trans _ v).
    + split; [discriminate|]. intros Hnn.
      rewrite List.Forall_forall in Hnn. specialize (Hnn v Hin). congruence.
Qed.

Lemma make_monic_integral_contract_witness :
  (is_monic (coeffs (Examples.in_ZZx [3; 2; 1])) = false ->
   _make_monic_integral Examples.v0 (Examples.in_ZZx [3; 2; 1])
   = Raise (NotImplementedError
              "The polynomial %r is not monic integral and %r does not provide the means to rewrite it to a monic integral polynomial."))
  /\ (forall G',
        _make_monic_integral Examples.v0 (Examples.in_ZZx [3; 2; 1]) = Ok G' ->
        G' = Examples.in_ZZx [3; 2; 1])
  /\ (in_domain_of Examples.v0 (Examples.in_ZZx [3; 2; 1]) ->
      is_monic (coeffs (Examples.in_ZZx [3; 2; 1])) = true ->
      (_make_monic_integral Examples.v0 (Examples.in_ZZx [3; 2; 1])
       = Ok (Examples.in_ZZx [3; 2; 1])
       <-> Forall (fun w => value_leb (Finite 0) w = true)
             (valuations Examples.v0 (coeffs (Examples.in_ZZx [3; 2; 1]))))
      /\ (_make_monic_integral Examples.v0 (Examples.in_ZZx [3; 2; 1])
          = Ok (Examples.in_ZZx [3; 2; 1])
          \/ _make_monic_integral Examples.v0 (Examples.in_ZZx [3; 2; 1])
             = Raise (NotImplementedError
                        "The polynomial %r is not monic integral and %r does not provide the means to rewrite it to a monic integral polynomial."))).
Proof.
  apply (make_monic_integral_contract Examples.v0 (Examples.in_ZZx [3; 2; 1])).
  - repeat split.
  - apply term_valuations_contract.
Defined.

Lemma effective_degree_of_constant self x a :
  key_ok self -> evaluator_contract self ->
  coerce (domain self) x = Some [a] -> a <> 0 ->
  effective_degree self x = Ok 0%nat.
Proof.
  intros Hkey Hev Hx Ha.
  rewrite (effective_degree_coerced self x [a] Hx). cbn [is_zero].
  assert (Hwf : wf [a]).
  { unfold wf. simpl. now destruct (Z.eqb_spec a 0). }
  pose proof (Hev [a] Hwf) as Hlen.
  rewrite (expansion_constant self a Hkey Ha) in Hlen.
  destruct (valuations self [a]) as [|w [|w' l]]; try discriminate.
  cbn [py_min fold_left mbind result_bind].
  unfold matching_indices, enumerate. simpl.
  now rewrite value_eqb_refl.
Qed.

(** An element of the base ring: its data is one coefficient, and it
    coerces to the constant polynomial. *)
Definition base_ring_element (self : DevelopingValuation) (x : Element)
  : Prop :=
  exists a, coeffs x = [a] /\ coerce (domain self) x = Some (constant a).

(** X10 -- The self-test passes.  On every sample of elements of the base
    ring, [_test_effective_degree] skips the zeros, finds effective degree
    0 for every other element and so never fails an assertion nor lets an
    exception escape. *)
Theorem test_effective_degree_passes self S :
  key_ok self -> evaluator_contract self ->
  Forall (base_ring_element self) S ->
  _test_effective_degree self S = Passed.
Proof.
  intros Hkey Hev. induction 1 as [|x S (a & Hx & Hco) _ IH]; [reflexivity|].
  cbn [_test_effective_degree]. unfold element_is_zero. rewrite Hx.
  unfold constant in Hco. simpl in *.
  destruct (Z.eqb_spec a 0) as [->|Ha]; [exact IH|]. cbn [is_zero].
  now rewrite (effective_degree_of_constant self x a Hkey Hev Hco Ha).
Qed.

Lemma test_effective_degree_passes_witness :
  _test_effective_degree Examples.v1
    [Examples.in_ZZ 0; Examples.in_ZZ 4; Examples.in_ZZ (-3)] = Passed.
Proof.
  apply (test_effective_degree_passes Examples.v1).
  - repeat split.
  - apply term_valuations_contract.
  - repeat constructor.
    + now exists 0.
    + now exists 4.
    + now exists (-3).
Defined.

Lemma py_last_in {A : Type} (l : list A) x : py_last l = Ok x -> In x l.
Proof.
  unfold py_last. destruct (List.rev l) as [|y r] eqn:E; [discriminate|].
  intros [= <-]. apply in_rev. rewrite E. now left.
Qed.

Lemma matching_indices_in P l i :
  In i (matching_indices P l) ->
  (i < length l)%nat /\ P (nth i l Infinity) = true.
Proof.
  induction l as [|w l IH] using rev_ind; [intros []|].
  rewrite matching_indices_snoc, length_app. simpl.
  intros [Hin|Hin]%in_app_iff.
  - destruct (IH Hin) as [Hlt HP]. split; [lia|]. now rewrite app_nth1.
  - destruct (P w) eqn:Ew; [|destruct Hin]. destruct Hin as [<-|[]].
    split; [lia|]. now rewrite nth_middle.
Qed.

(** X11 -- Bound on the effective degree.  When [effective_degree] returns
    [i], then [i <= deg f // deg phi], where [f] is the coerced argument;
    in particular [i <= deg f]. *)
Theorem effective_degree_bound self x f i :
  key_ok self -> evaluator_contract self ->
  coerce (domain self) x = Some f -> wf f ->
  effective_degree self x = Ok i ->
  Z.of_nat i <= degree f / degree (phi self) /\ Z.of_nat i <= degree f.
Proof.
  intros Hkey Hev Hx Hf. rewrite (effective_degree_coerced self x f Hx).
  destruct (is_zero f); [discriminate|].
  destruct (py_min (valuations self f)) as [v|e]; cbn [mbind result_bind];
    [|discriminate].
  intros [Hlt _]%py_last_in%matching_indices_in.
  rewrite (Hev f Hf) in Hlt.
  pose proof (expansion_length self f Hkey Hf) as Hlen.
  destruct (key_ok_monic self Hkey) as (m & _ & H1m & Hdeg).
  assert (Hi : Z.of_nat i <= degree f / degree (phi self)) by lia.
  split; [assumption|].
  assert (0 <= degree f).
  { unfold degree in *. destruct f; simpl in *; [|lia].
    rewrite expansion_zero in Hlt. simpl in Hlt. lia. }
  etransitivity; [exact Hi|]. rewrite Hdeg.
  apply Z.div_le_upper_bound; nia.
Qed.

Lemma effective_degree_bound_witness :
  Z.of_nat 1 <= degree [0; 1] / degree (phi Examples.v0)
  /\ Z.of_nat 1 <= degree [0; 1].
Proof.
  apply (effective_degree_bound Examples.v0 (Examples.in_ZZx [0; 1]) [0; 1] 1).
  - repeat split.
  - apply term_valuations_contract.
  - reflexivity.
  - reflexivity.
  - reflexivity.
Defined.

(** X12 -- From the constructor to the expansion.  On an instance that
    [__init__] returned, for a [phi] whose coercion is a polynomial of the
    domain, [coefficients] terminates on every polynomial of the domain
    with an expansion that sums to its argument and whose coefficients have
    degree less than the degree of the stored [phi]. *)
Theorem init_then_coefficients vals P phi0 self fuel f c :
  (forall p, coerce (parent_domain P) phi0 = Some p -> wf p) ->
  __init__ vals P phi0 = Ok self ->
  cache_ok self c -> in_domain_of self f ->
  (length (coeffs f) <= fuel)%nat ->
  exists cs c',
    coefficients self fuel f c = (Ok (Some cs), c')
    /\ expansion_sum (phi self) cs = coeffs f
    /\ Forall (fun p => degree p < degree (phi self)) cs
    /\ coerce (parent_domain P) phi0 = Some (phi self).
Proof.
  intros Hwf Hinit Hc Hf Hlen.
  assert (Hkey : key_ok self /\ coerce (parent_domain P) phi0 = Some (phi self)).
  { unfold __init__ in Hinit.
    destruct (is_PolynomialRing (parent_domain P)); [|discriminate].
    destruct (ngens (parent_domain P) =? 1)%nat; [|discriminate].
    destruct (coerce (parent_domain P) phi0) as [p|] eqn:Ep; [|discriminate].
    destruct (is_constant p) eqn:Ec; [discriminate|].
    destruct (is_monic p) eqn:Em; [|discriminate].
    injection Hinit as <-. unfold key_ok. cbn [phi _phi]. auto. }
  destruct Hkey as [Hkey Hco].
  destruct (coefficients_run self fuel f c Hkey Hc Hf Hlen)
    as (cs & c' & E & _ & Hsum & Hsmall).
  exists cs, c'. split; [assumption|]. split; [|split; [|assumption]].
  - apply expansion_sum_eq; [apply Hf | assumption].
  - eapply Forall_impl; [exact Hsmall|]. now intros p [_ Hp].
Qed.

Lemma init_then_coefficients_witness :
  exists cs c',
    coefficients Examples.v0 3 (Examples.in_ZZx [3; 2; 1]) ∅
    = (Ok (Some cs), c')
    /\ expansion_sum (phi Examples.v0) cs = coeffs (Examples.in_ZZx [3; 2; 1])
    /\ Forall (fun p => degree p < degree (phi Examples.v0)) cs
    /\ coerce (parent_domain Examples.space) (Examples.in_ZZx [0; 1])
       = Some (phi Examples.v0).
Proof.
  apply (init_then_coefficients (Examples.term_valuations [0; 1] 0)
           Examples.space (Examples.in_ZZx [0; 1]) Examples.v0 3
           (Examples.in_ZZx [3; 2; 1]) ∅).
  - intros p [= <-]. reflexivity.
  - reflexivity.
  - apply cache_ok_empty.
  - split; reflexivity.
  - simpl. lia.
Defined.

(** X13 -- Why [phi] must not be constant.  With the constant monic [phi = 1],
    which the constructor refuses, the loop of [__coefficients] divides a
    non-zero polynomial into itself and remainder zero, and so never
    stops: every fuel runs out. *)
Theorem constant_key_diverges self fuel f c :
  phi self = one -> cache_ok self c -> wf f -> f <> zero ->
  exists c', __coefficients self fuel f c = (None, c').
Proof.
  intros Hone Hc Hf Hne.
  destruct (coefficients_loop_run self fuel f c Hc) as (c' & E & _).
  exists c'. rewrite E. f_equal. rewrite Hone. clear E c' Hc c Hone.
  assert (Hm : monic_of_degree one 0) by (split; reflexivity).
  induction fuel as [|fuel IH]; cbn [division_loop]; rewrite degree_nonneg;
    destruct f as [|a f]; try (now contradiction Hne); cbn [is_zero negb];
    [reflexivity|].
  destruct (quo_rem_by_monomials one (a :: f)) as [q r] eqn:Eq.
  destruct (quo_rem_by_monomials_spec one 0 _ q r Hm Eq)
    as (H1 & Hq & Hr & H2 & _).
  assert (r = []) as ->.
  { apply wf_peq_eq; auto using wf_nil. by_coef. intros i.
    rewrite coef_nil. apply H2. lia. }
  assert (q = a :: f) as ->.
  { apply wf_peq_eq; auto. rewrite H1. unfold one. ring. }
  now rewrite IH.
Qed.

Lemma constant_key_diverges_witness :
  exists c',
    __coefficients
      {| _parent := Examples.space; _phi := one; valuations := fun _ => [] |}
      7 [3; 2; 1] ∅ = (None, c').
Proof.
  apply (constant_key_diverges
           {| _parent := Examples.space; _phi := one;
              valuations := fun _ => [] |} 7 [3; 2; 1] ∅).
  - reflexivity.
  - apply cache_ok_empty.
  - reflexivity.
  - discriminate.
Defined.

(** X14 -- Progress of the division.  The quotient that [__quo_rem(f)]
    returns has degree [deg f - deg phi] when [deg f >= deg phi]; below
    that, the quotient is zero and the remainder is [f] itself. *)
Theorem quo_rem_degree self f c :
  key_ok self -> cache_ok self c -> wf f ->
  exists q r c1,
    __quo_rem self f c = ((q, r), c1)
    /\ (degree (phi self) <= degree f ->
        degree q = degree f - degree (phi self))
    /\ (degree f < degree (phi self) -> q = zero /\ r = f).
Proof.
  intros Hkey Hc Hf.
  destruct (key_ok_monic self Hkey) as (m & Hm & H1m & Hdeg).
  destruct (quo_rem_run self f c Hc) as (c1 & E & _).
  destruct (quo_rem_by_monomials (phi self) f) as [q r] eqn:Eq.
  pose proof (quotient_length _ m Hm f q r Hf Eq) as Hlq.
  destruct (quo_rem_by_monomials_spec _ m f q r Hm Eq) as (H1 & Hq & Hr & _).
  exists q, r, c1. split; [assumption|]. rewrite Hdeg. unfold degree. split.
  - intros Hle. lia.
  - intros Hlt. assert (q = []) as -> by (destruct q; [reflexivity | simpl in *; lia]).
    split; [reflexivity|]. apply wf_peq_eq; auto.
    rewrite H1. by_coef. reflexivity.
Qed.

Lemma quo_rem_degree_witness :
  exists q r c1,
    __quo_rem Examples.v1 [3; 2; 1; 0; 5] ∅ = ((q, r), c1)
    /\ (degree (phi Examples.v1) <= degree [3; 2; 1; 0; 5] ->
        degree q = degree [3; 2; 1; 0; 5] - degree (phi Examples.v1))
    /\ (degree [3; 2; 1; 0; 5] < degree (phi Examples.v1) ->
        q = zero /\ r = [3; 2; 1; 0; 5]).
Proof.
  apply (quo_rem_degree Examples.v1 [3; 2; 1; 0; 5] ∅).
  - repeat split.
  - apply cache_ok_empty.
  - reflexivity.
Defined.

(** ** The valuation on the Newton polygon *)

Lemma lowest_on_edge (ux uy vx vy px y0 : Q) :
  (ux < vx -> ux <= px -> px <= vx -> y0 <= uy -> y0 <= vy ->
   0 <= (vx - ux) * (y0 - uy) - (vy - uy) * (px - ux) ->
   uy == y0 \/ vy == y0)%Q.
Proof.
  intros Huv Hup Hpv Hu Hv Hcross.
  assert (E : ((vx - ux) * (y0 - uy) - (vy - uy) * (px - ux)
               == (vx - px) * (y0 - uy) - (px - ux) * (vy - y0))%Q) by ring.
  destruct (Qlt_le_dec ux px) as [Hlt|Hle].
  - right. apply Qle_antisym; [|assumption]. nra.
  - left. apply Qle_antisym; [|assumption]. nra.
Qed.

Lemma increasing_head pts a p :
  increasing pts -> head pts = Some a -> In p pts -> (fst a <= fst p)%Z.
Proof.
  intros Hinc Hh Hp. destruct pts as [|c l]; [discriminate|].
  injection Hh as ->. apply StronglySorted_inv in Hinc as [_ Hall].
  destruct Hp as [<-|Hp]; [lia|].
  rewrite List.Forall_forall in Hall. specialize (Hall p Hp). lia.
Qed.

Lemma increasing_last pts z p :
  increasing pts -> last pts = Some z -> In p pts -> (fst p <= fst z)%Z.
Proof.
  induction 1 as [|c l Hl IH Hall]; intros Hz Hp; [destruct Hp|].
  destruct l as [|d l].
  - injection Hz as <-. destruct Hp as [<-|[]]. lia.
  - rewrite last_cons_cons in Hz. destruct Hp as [<-|Hp]; [|now apply IH].
    rewrite List.Forall_forall in Hall.
    apply last_Some_elem_of, list_elem_of_In in Hz.
    specialize (Hall z Hz). lia.
Qed.

Lemma increasing_inj pts u p :
  increasing pts -> In u pts -> In p pts -> fst u = fst p -> u = p.
Proof.
  induction 1 as [|c l Hl IH Hall]; intros Hu Hp E; [destruct Hu|].
  rewrite List.Forall_forall in Hall.
  destruct Hu as [<-|Hu], Hp as [<-|Hp]; auto.
  - specialize (Hall p Hp). lia.
  - specialize (Hall u Hu). lia.
Qed.

(** A point between the ends of a chain has the abscissa of a vertex or
    lies under an edge. *)
Lemma find_edge (hull : list point) a z (px : Z) :
  head hull = Some a -> last hull = Some z ->
  (fst a <= px <= fst z)%Z ->
  (exists u, In u hull /\ fst u = px)
  \/ exists l1 l2 u v, hull = l1 ++ u :: v :: l2 /\ (fst u <= px <= fst v)%Z.
Proof.
  revert a. induction hull as [|b hull IH]; intros a Hh Hz Hx; [discriminate|].
  injection Hh as ->. destruct hull as [|d hull].
  - injection Hz as <-. left. exists a. split; [now left | lia].
  - destruct (Z_le_gt_dec px (fst d)) as [Hle|Hgt].
    + right. exists [], hull, a, d. split; [reflexivity | lia].
    + rewrite last_cons_cons in Hz.
      destruct (IH d eq_refl Hz) as [(u & Hu & Eu) | (l1 & l2 & u & v & E & Huv)];
        [lia| |].
      * left. exists u. split; [now right | assumption].
      * right. exists (a :: l1), l2, u, v. now rewrite E.
Qed.

(** X15 -- The valuation can be read off the Newton polygon.  When the
    valuation of [f] is finite, no vertex of [newton_polygon(f)] lies below
    it and one vertex lies at that height: the valuation of [f] is the
    lowest ordinate of its Newton polygon. *)
Theorem newton_polygon_lowest_vertex self f y0 :
  parent f = ring_id (domain self) ->
  _call_ self f = Ok (Finite y0) ->
  exists hull,
    newton_polygon self f = Ok hull
    /\ (forall x y, In (x, y) hull -> (y0 <= y)%Q)
    /\ (exists x y, In (x, y) hull /\ (y == y0)%Q).
Proof.
  intros Hpar Hcall.
  exists (NewtonPolygon (enumerate (valuations self (coeffs f)))).
  unfold newton_polygon, _call_ in *. rewrite Hpar, Nat.eqb_refl in *.
  cbn [negb] in *. split; [reflexivity|].
  destruct (is_zero (coeffs f)); [discriminate|].
  set (vals := valuations self (coeffs f)) in *.
  destruct (py_min_spec vals) as (m & Hm & Hin & Hall).
  { intros E. rewrite E in Hcall. discriminate. }
  rewrite Hm in Hcall. injection Hcall as ->.
  pose proof (finite_points_increasing 0 vals) as Hinc.
  destruct (NewtonPolygon_lower_hull (enumerate vals) Hinc)
    as (Hsub & Hdesc & _ & Habove & Hhead & Hlast).
  fold (enumerate vals) in Hinc.
  set (pts := finite_points (enumerate vals)) in *.
  set (hull := NewtonPolygon (enumerate vals)) in *.
  assert (Hlow : forall x y, In (x, y) hull -> (y0 <= y)%Q).
  { intros x y Hv. apply Hsub in Hv. unfold pts, enumerate in Hv.
    apply finite_points_in in Hv as (i & _ & Hi). apply nth_error_In in Hi.
    rewrite List.Forall_forall in Hall. specialize (Hall _ Hi).
    now apply Qle_bool_iff in Hall. }
  split; [exact Hlow|].
  destruct (In_nth_error _ _ Hin) as [i0 Hi0].
  assert (Hp : In (Z.of_nat i0, y0) pts).
  { unfold pts, enumerate. apply finite_points_in. now exists i0. }
  destruct pts as [|p0 pts'] eqn:Epts; [destruct Hp|].
  destruct (last (p0 :: pts')) as [z|] eqn:Ez;
    [|apply last_None in Ez; discriminate].
  destruct (find_edge hull p0 z (Z.of_nat i0)) as
    [(u & Hu & Eu) | (l1 & l2 & [ux uy] & [vx vy] & E & Huv)]; auto.
  - split.
    + apply (increasing_head _ p0 (Z.of_nat i0, y0) Hinc eq_refl Hp).
    + apply (increasing_last _ z (Z.of_nat i0, y0) Hinc Ez Hp).
  - assert (u = (Z.of_nat i0, y0)) as ->
        by (apply (increasing_inj _ _ _ Hinc); auto).
    exists (Z.of_nat i0), y0. split; [assumption | reflexivity].
  - pose proof (Hdesc _ _ _ _ E) as Hlt.
    pose proof (Habove _ _ _ _ (Z.of_nat i0, y0) E Hp Huv) as Hcross.
    assert (Hiu : In (ux, uy) hull)
      by (rewrite E; apply in_app_iff; right; now left).
    assert (Hiv : In (vx, vy) hull)
      by (rewrite E; apply in_app_iff; right; right; now left).
    unfold cross in Hcross. cbn [fst snd] in *.
    destruct (lowest_on_edge (inject_Z ux) uy (inject_Z vx) vy
                (inject_Z (Z.of_nat i0)) y0) as [Hy|Hy]; auto.
    + now rewrite <- Zlt_Qlt.
    + rewrite <- Zle_Qle. lia.
    + rewrite <- Zle_Qle. lia.
    + now apply (Hlow ux).
    + now apply (Hlow vx).
    + exists ux, uy. now split.
    + exists vx, vy. now split.
Qed.

Lemma newton_polygon_lowest_vertex_witness :
  exists hull,
    newton_polygon Examples.v1 (Examples.in_ZZx [3; 2; 1]) = Ok hull
    /\ (forall x y, In (x, y) hull -> (0 <= y)%Q)
    /\ (exists x y, In (x, y) hull /\ (y == 0)%Q).
Proof.
  apply (newton_polygon_lowest_vertex Examples.v1 (Examples.in_ZZx [3; 2; 1]) 0).
  - reflexivity.
  - vm_compute. reflexivity.
Defined.
